(** * The map-creation routine of the OSM processor

    A shallow embedding of [routine::create::run] (src/main/routine/create.hpp)
    and of the identifier type of src/main/model/memory/type.hpp.

    The driver is embedded statement by statement.  The collaborators it calls
    (validators, reader, compressor, assemblers, inspector, filter, projector)
    live in headers that are not part of the sources at hand; the driver takes
    them as one record of operations.  The validators, the direct assembler,
    the neighbor inspector, the area filter and the projector are then
    modelled after the written specification. *)

From Stdlib Require Import ZArith List Bool Floats Lia.
From stdpp Require Import gmap list strings.

Open Scope Z_scope.

(* ===================================================================== *)
(** * model/memory/type.hpp                                               *)
(* ===================================================================== *)

Module memory.

(** [typedef signed long object_id_type;]  The width of [long] is fixed by
    the data model of the platform the program is compiled for. *)
Inductive data_model := LP64 | LLP64 | ILP32.

Definition long_bits (dm : data_model) : Z :=
  match dm with
  | LP64 => 64
  | LLP64 | ILP32 => 32
  end.

Definition object_id_bits (dm : data_model) : Z := long_bits dm.

Definition object_id_min (dm : data_model) : Z := - 2 ^ (object_id_bits dm - 1).
Definition object_id_max (dm : data_model) : Z := 2 ^ (object_id_bits dm - 1) - 1.

(** The values a variable of type [object_id_type] can hold. *)
Definition representable (dm : data_model) (z : Z) : Prop :=
  object_id_min dm <= z <= object_id_max dm.

(** Two's complement conversion of an arbitrary integer to the type. *)
Definition to_object_id (dm : data_model) (z : Z) : Z :=
  (z + 2 ^ (object_id_bits dm - 1)) mod 2 ^ object_id_bits dm
  - 2 ^ (object_id_bits dm - 1).

(** The program is built against libosmium on an LP64 platform. *)
Definition object_id_type : Type := Z.

End memory.

Abbreviation object_id_type := memory.object_id_type.

(* ===================================================================== *)
(** * Numbers of the driver                                               *)
(* ===================================================================== *)

(** [double] is IEEE 754 binary64: the primitive type [float]. *)
Abbreviation double := float.

(** [size_t] is an unsigned 64-bit integer. *)
Definition size_t_max : Z := 2 ^ 64 - 1.

(** Integer to [double]: round to nearest, ties to even. *)
Definition double_of_Z (z : Z) : double :=
  SF2Prim (binary_normalize 53 1024 z 0 false).

(** [double] to [size_t]: the fractional part is discarded; the conversion is
    undefined ([None]) when the truncated value does not fit, and for
    infinities and NaN. *)
Definition Z_of_double_trunc (d : double) : option Z :=
  match Prim2SF d with
  | S754_zero _ => Some 0
  | S754_finite s m e =>
      let mag := if 0 <=? e then Z.pos m * 2 ^ e else Z.pos m / 2 ^ (- e) in
      Some (if s then - mag else mag)
  | S754_infinity _ | S754_nan => None
  end.

Definition size_t_of_double (d : double) : option Z :=
  match Z_of_double_trunc d with
  | Some z => if (0 <=? z) && (z <=? size_t_max) then Some z else None
  | None => None
  end.

(* ===================================================================== *)
(** * Geometry and the in-memory dataset                                  *)
(* ===================================================================== *)

Module geometry.

Record Point := { x : double; y : double }.

(** Modelled from the spec: model/geometry/rectangle.hpp is not among the
    sources.  A rectangle is an axis-aligned bounding interval per axis
    (section 4.6), kept as its two corners; [width] and [height] are the
    lengths of the two intervals. *)
Record Rectangle := { min : Point; max : Point }.

Definition width (r : Rectangle) : double := (x (max r) - x (min r))%float.
Definition height (r : Rectangle) : double := (y (max r) - y (min r))%float.

(** The rectangle whose four coordinates are all [0.0]. *)
Definition zero : Rectangle :=
  {| min := {| x := 0; y := 0 |}; max := {| x := 0; y := 0 |} |}.

End geometry.

Definition level_type : Type := Z.

Inductive Role := outer | inner.

#[global] Instance Role_eq_dec : EqDecision Role.
Proof. solve_decision. Defined.

(** A member of a relation: a line id and its role. *)
Record Member := { ref : object_id_type; role : Role }.

Record Relation := {
  relation_id : object_id_type;
  level : level_type;
  members : list Member
}.

(** A ring is the closed sequence of the point ids on it. *)
Definition Ring : Type := list object_id_type.

Record Area := {
  area_id : object_id_type;
  area_relation : object_id_type;
  area_level : level_type;
  outer_rings : list Ring;
  inner_rings : list Ring
}.

(** The point table maps a point id to its coordinate, the line table a line
    id to the ids of its points.  The adjacency graph maps an area id to the
    ids of the neighbouring areas, the component map an area id to the id of
    its component. *)
Record DataContainer := {
  nodes : gmap Z geometry.Point;
  ways : gmap Z (list Z);
  relations : list Relation;
  areas : list Area;
  incomplete_relations : gset Z
}.

(* ===================================================================== *)
(** * routine/create.hpp: the driver                                      *)
(* ===================================================================== *)

Module create.

(** The variables filled in by the command-line parser. *)
Record Options := {
  input : string;
  output : string;
  territory_level : level_type;
  bonus_levels : list level_type;
  width : Z;
  height : Z;
  compression_epsilon : double;
  filter_epsilon : double;
  verbose : bool
}.

(** The projection steps the driver builds; an interval is a pair. *)
Inductive Projection :=
| RadianProjection
| MercatorProjection
| UnitProjection (ix iy : double * double)
| IntervalProjection (sx sy tx ty : double * double).

(** The stages of the pipeline, as the driver invokes them. *)
Inductive Stage :=
| ReadInfo
| ReadData
| CompressWays
| AssembleTerritories
| InspectNeighbors
| FilterAreas
| AssembleBonuses
| ApplyProjection (p : Projection).

(** How a run ends other than by returning: an exception that leaves [run],
    or a conversion whose behaviour the language leaves undefined. *)
Inductive Abort :=
| Thrown (what : string)
| Undefined.

(** The operations of the headers the driver includes. *)
Record Components := {
  (* util/validate.hpp: [Some what] when the validator throws *)
  validate_file : string -> string -> option string;
  validate_levels : level_type -> list level_type -> option string;
  validate_dimensions : Z -> Z -> option string;
  validate_epsilon : string -> double -> option string;
  (* boost::filesystem: the default output prefix for an input path *)
  default_output : string -> string;
  (* io/reader.hpp *)
  get_data : string -> level_type -> list level_type -> DataContainer;
  (* mapmaker/compressor.hpp *)
  compress_ways :
    double -> gmap Z geometry.Point -> gmap Z (list Z) ->
    gmap Z geometry.Point * gmap Z (list Z);
  (* mapmaker/assembler.hpp *)
  simple_assemble_areas :
    gmap Z geometry.Point -> gmap Z (list Z) -> list Relation ->
    list level_type -> list Area;
  complex_assemble_areas :
    gmap Z geometry.Point -> gmap Z (list Z) -> list Relation ->
    list Area -> list level_type -> list Area;
  (* mapmaker/inspector.hpp *)
  get_relations : list Area -> gmap Z (gset Z) * gmap Z Z;
  (* mapmaker/filter.hpp *)
  filter_areas :
    double -> list Area -> list Relation -> gmap Z Z ->
    gmap Z geometry.Point -> gmap Z (list Z) -> list Area;
  (* mapmaker/projector.hpp, functions/project.hpp *)
  apply_projection : Projection -> gmap Z geometry.Point -> gmap Z geometry.Point;
  (* model/geometry/rectangle.hpp: what [Rectangle<double> bounds;] holds *)
  default_rectangle : geometry.Rectangle
}.

(** The variables of [run] that the stages update, and the stages invoked so
    far (most recent first). *)
Record State := {
  data : DataContainer;
  neighbors : gmap Z (gset Z);
  components : gmap Z Z;
  out_prefix : string;
  out_width : Z;
  out_height : Z;
  stages : list Stage
}.

Definition empty_data : DataContainer :=
  {| nodes := ∅; ways := ∅; relations := []; areas := [];
     incomplete_relations := ∅ |}.

Definition initial (o : Options) : State :=
  {| data := empty_data; neighbors := ∅; components := ∅;
     out_prefix := output o; out_width := width o; out_height := height o;
     stages := [] |}.

(** ** A state and abort monad for the body of [run] *)

Definition M (A : Type) : Type := State -> (Abort + A) * State.

Definition ret {A} (a : A) : M A := fun s => (inr a, s).
Definition bind {A B} (m : M A) (k : A -> M B) : M B :=
  fun s => match m s with
           | (inl e, s') => (inl e, s')
           | (inr a, s') => k a s'
           end.
Definition abort {A} (e : Abort) : M A := fun s => (inl e, s).
Definition get : M State := fun s => (inr s, s).
Definition modify (f : State -> State) : M unit := fun s => (inr tt, f s).

Declare Scope run_scope.
Delimit Scope run_scope with run.
Notation "x <- m ;; k" := (bind m (fun x => k))
  (at level 100, m at next level, right associativity) : run_scope.
Notation "m ;; k" := (bind m (fun _ => k))
  (at level 100, right associativity) : run_scope.
Open Scope run_scope.

(** A validator call: its exception, if any, leaves [run]. *)
Definition check (r : option string) : M unit :=
  match r with
  | Some what => abort (Thrown what)
  | None => ret tt
  end.

Definition enter (st : Stage) : M unit :=
  modify (fun s => {| data := data s; neighbors := neighbors s;
                      components := components s; out_prefix := out_prefix s;
                      out_width := out_width s; out_height := out_height s;
                      stages := st :: stages s |}).

Definition set_data (d : DataContainer) : M unit :=
  modify (fun s => {| data := d; neighbors := neighbors s;
                      components := components s; out_prefix := out_prefix s;
                      out_width := out_width s; out_height := out_height s;
                      stages := stages s |}).

Definition set_relations (r : gmap Z (gset Z) * gmap Z Z) : M unit :=
  modify (fun s => {| data := data s; neighbors := fst r;
                      components := snd r; out_prefix := out_prefix s;
                      out_width := out_width s; out_height := out_height s;
                      stages := stages s |}).

Definition set_output (p : string) : M unit :=
  modify (fun s => {| data := data s; neighbors := neighbors s;
                      components := components s; out_prefix := p;
                      out_width := out_width s; out_height := out_height s;
                      stages := stages s |}).

Definition set_dimensions (w h : Z) : M unit :=
  modify (fun s => {| data := data s; neighbors := neighbors s;
                      components := components s; out_prefix := out_prefix s;
                      out_width := w; out_height := h;
                      stages := stages s |}).

Definition with_nodes (d : DataContainer) (n : gmap Z geometry.Point) : DataContainer :=
  {| nodes := n; ways := ways d; relations := relations d; areas := areas d;
     incomplete_relations := incomplete_relations d |}.

Definition with_nodes_ways (d : DataContainer)
    (nw : gmap Z geometry.Point * gmap Z (list Z)) : DataContainer :=
  {| nodes := fst nw; ways := snd nw; relations := relations d;
     areas := areas d; incomplete_relations := incomplete_relations d |}.

Definition with_areas (d : DataContainer) (a : list Area) : DataContainer :=
  {| nodes := nodes d; ways := ways d; relations := relations d; areas := a;
     incomplete_relations := incomplete_relations d |}.

(** [projector.apply_projection(p)]: every point of the table is mapped. *)
Definition project (K : Components) (p : Projection) : M unit :=
  enter (ApplyProjection p) ;;
  s <- get ;;
  set_data (with_nodes (data s) (apply_projection K p (nodes (data s)))).

(** ** The scaling block (lines 193 to 209) *)

(** The divisor of the one division the block performs, when it performs
    one. *)
Definition auto_divisor (bounds : geometry.Rectangle) (w h : Z) : option double :=
  if (w =? 0) || (h =? 0)
  then Some (if w =? 0 then geometry.height bounds else geometry.width bounds)
  else None.

(** [width = bounds.width() / bounds.height() * height;] and its mirror
    image.  The product is a [double]; assigning it converts to [size_t]. *)
Definition auto_dimensions (bounds : geometry.Rectangle) (w h : Z) : option (Z * Z) :=
  if (w =? 0) || (h =? 0)
  then if w =? 0
       then match size_t_of_double
                    (geometry.width bounds / geometry.height bounds * double_of_Z h)%float with
            | Some w' => Some (w', h)
            | None => None
            end
       else match size_t_of_double
                    (geometry.height bounds / geometry.width bounds * double_of_Z w)%float with
            | Some h' => Some (w, h')
            | None => None
            end
  else Some (w, h).

(** ** [void run(const std::vector<std::string>& args, char* argv[])] *)

Definition run (K : Components) (o : Options) : M unit :=
  (* Validate the parsed variables *)
  check (validate_file K "input" (input o)) ;;
  check (validate_levels K (territory_level o) (bonus_levels o)) ;;
  check (validate_dimensions K (width o) (height o)) ;;
  check (validate_epsilon K "compression-tolerance" (compression_epsilon o)) ;;
  check (validate_epsilon K "filter-tolerance" (filter_epsilon o)) ;;
  (* Set the output file naming prefix *)
  (if String.eqb (output o) "" then set_output (default_output K (input o))
   else set_output (output o)) ;;
  (* Read the file info *)
  enter ReadInfo ;;
  (* Read the file contents *)
  enter ReadData ;;
  set_data (get_data K (input o) (territory_level o) (bonus_levels o)) ;;
  (* Compress the extracted ways *)
  (if (0 <? compression_epsilon o)%float
   then enter CompressWays ;;
        s <- get ;;
        set_data (with_nodes_ways (data s)
                    (compress_ways K (compression_epsilon o)
                       (nodes (data s)) (ways (data s))))
   else ret tt) ;;
  (* Assemble the territory areas *)
  enter AssembleTerritories ;;
  s <- get ;;
  set_data (with_areas (data s)
              (simple_assemble_areas K (nodes (data s)) (ways (data s))
                 (relations (data s)) [territory_level o])) ;;
  (* Create the neighbor graph and component map *)
  enter InspectNeighbors ;;
  s <- get ;;
  set_relations (get_relations K (areas (data s))) ;;
  (* Apply the area filter on the territories *)
  (if (0 <? filter_epsilon o)%float
   then enter FilterAreas ;;
        s <- get ;;
        set_data (with_areas (data s)
                    (filter_areas K (filter_epsilon o) (areas (data s))
                       (relations (data s)) (components s)
                       (nodes (data s)) (ways (data s))))
   else ret tt) ;;
  (* Assemble the bonus areas *)
  (match bonus_levels o with
   | [] => ret tt
   | _ :: _ =>
       enter AssembleBonuses ;;
       s <- get ;;
       set_data (with_areas (data s)
                   (complex_assemble_areas K (nodes (data s)) (ways (data s))
                      (relations (data s)) (areas (data s)) (bonus_levels o)))
   end) ;;
  (* Apply the map projections *)
  project K RadianProjection ;;
  project K MercatorProjection ;;
  (* Scale the map *)
  let bounds := default_rectangle K in
  s <- get ;;
  match auto_dimensions bounds (out_width s) (out_height s) with
  | None => abort Undefined
  | Some (w, h) =>
      set_dimensions w h ;;
      project K (UnitProjection
                   (geometry.x (geometry.min bounds), geometry.x (geometry.max bounds))
                   (geometry.y (geometry.min bounds), geometry.y (geometry.max bounds))) ;;
      project K (IntervalProjection (0, 1)%float (0, 1)%float
                   (0%float, double_of_Z w) (0%float, double_of_Z h))
  end.

(** The outcome of a run and the state it leaves. *)
Definition exec (K : Components) (o : Options) : (Abort + unit) * State :=
  run K o (initial o).

End create.

(* ===================================================================== *)
(** * util/validate.hpp                                                   *)
(* ===================================================================== *)

Module validate.

Section Validators.

(** Which paths name a file that can be read. *)
Variable readable : string -> bool.

(** Modelled from the spec: util/validate.hpp is not among the sources.
    Section 7 lists what is rejected before any stage runs: an unreadable
    input path. *)
Definition validate_file (name path : string) : option string :=
  if readable path then None else Some name.

Definition valid_level (l : level_type) : bool := (1 <=? l) && (l <=? 12).

(** Modelled from the spec: an administrative level outside 1 to 12, or a
    bonus level equal to the territory level, is rejected (section 7). *)
Definition validate_levels (t : level_type) (bs : list level_type) : option string :=
  if negb (valid_level t) then Some "territory-level"
  else if existsb (fun b => negb (valid_level b) || (b =? t)) bs
       then Some "bonus-levels"
       else None.

(** Modelled from the spec: negative or nonsensical dimensions are
    rejected (section 7); with both dimensions 0 neither can be derived
    from the other (section 6). *)
Definition validate_dimensions (w h : Z) : option string :=
  if (w <? 0) || (h <? 0) || ((w =? 0) && (h =? 0)) then Some "dimensions"
  else None.

(** Modelled from the spec: negative tolerance values are rejected
    (section 7). *)
Definition validate_epsilon (name : string) (epsilon : double) : option string :=
  if (epsilon <? 0)%float then Some name else None.

End Validators.

End validate.

(* ===================================================================== *)
(** * mapmaker/assembler.hpp: the direct strategy                         *)
(* ===================================================================== *)

Module assembler.

(** A line is closed when its first and last point id coincide
    (section 3). *)
Definition is_closed (chain : list Z) : bool :=
  match head chain, last chain with
  | Some a, Some b => bool_decide (a = b)
  | _, _ => false
  end.

(** The first line of [ls] that has the point [e] as an endpoint: the
    points it adds to a chain ending in [e] (the line is traversed backwards
    when [e] is its last point), and the lines left over. *)
Fixpoint pick (e : Z) (ls : list (list Z)) : option (list Z * list (list Z)) :=
  match ls with
  | [] => None
  | l :: ls' =>
      if bool_decide (head l = Some e) then Some (tail l, ls')
      else if bool_decide (last l = Some e) then Some (tail (reverse l), ls')
      else match pick e ls' with
           | Some (ext, rest) => Some (ext, l :: rest)
           | None => None
           end
  end.

(** Greedy chaining: the chain grows by one line per step until its two
    ends coincide (a ring is emitted) or no line continues it (the chain
    stays open: [None]).  Each step consumes a line, so [length ls] steps
    suffice. *)
Fixpoint extend (fuel : nat) (chain : list Z) (ls : list (list Z))
    : option (Ring * list (list Z)) :=
  if is_closed chain then Some (chain, ls)
  else match fuel with
       | O => None
       | S n =>
           match last chain with
           | None => None
           | Some e =>
               match pick e ls with
               | Some (ext, rest) => extend n (chain ++ ext) rest
               | None => None
               end
           end
       end.

Fixpoint close_rings (fuel : nat) (ls : list (list Z)) : option (list Ring) :=
  match ls with
  | [] => Some []
  | l :: rest =>
      match fuel with
      | O => None
      | S n =>
          match extend (length rest) l rest with
          | Some (ring, rest') =>
              match close_rings n rest' with
              | Some rings => Some (ring :: rings)
              | None => None
              end
          | None => None
          end
      end
  end.

(** Modelled from the spec: mapmaker/assembler.hpp is not among the
    sources.  Ring closure (section 4.2) chains lines whose endpoints match
    until the chain's start and end point id coincide, or no further line
    can be chained and the chain remains open. *)
Definition rings (ls : list (list Z)) : option (list Ring) :=
  close_rings (length ls) ls.

(** The lines of the members with a given role; [None] when the line table
    lacks one of them. *)
Definition lines_of (ways : gmap Z (list Z)) (r : Role) (ms : list Member)
    : option (list (list Z)) :=
  mapM (fun m => ways !! ref m) (List.filter (fun m => bool_decide (role m = r)) ms).

(** The rings of one relation, or [None] when a chain of either role cannot
    be closed or there is no outer ring at all. *)
Definition assemble_relation (ways : gmap Z (list Z)) (rel : Relation)
    : option (list Ring * list Ring) :=
  match lines_of ways outer (members rel), lines_of ways inner (members rel) with
  | Some outer_lines, Some inner_lines =>
      match rings outer_lines, rings inner_lines with
      | Some (o :: os), Some inners => Some (o :: os, inners)
      | _, _ => None
      end
  | _, _ => None
  end.

Record Assembly := { assembled : list Area; incomplete : gset Z }.

(** Areas are numbered in the order they are produced, from [next] on. *)
Fixpoint assemble_from (next : Z) (ways : gmap Z (list Z)) (levels : list level_type)
    (rels : list Relation) : Assembly :=
  match rels with
  | [] => {| assembled := []; incomplete := ∅ |}
  | rel :: rels' =>
      if bool_decide (level rel ∈ levels)
      then match assemble_relation ways rel with
           | Some (outers, inners) =>
               let rest := assemble_from (next + 1) ways levels rels' in
               {| assembled :=
                    {| area_id := next; area_relation := relation_id rel;
                       area_level := level rel;
                       outer_rings := outers; inner_rings := inners |}
                    :: assembled rest;
                  incomplete := incomplete rest |}
           | None =>
               let rest := assemble_from next ways levels rels' in
               {| assembled := assembled rest;
                  incomplete := {[ relation_id rel ]} ∪ incomplete rest |}
           end
      else assemble_from next ways levels rels'
  end.

(** Modelled from the spec: the direct strategy (section 4.2) selects the
    relations whose level is in [levels]; a relation whose chains cannot be
    closed is marked incomplete, its id recorded and no area produced. *)
Definition assemble (nodes : gmap Z geometry.Point) (ways : gmap Z (list Z))
    (rels : list Relation) (levels : list level_type) : Assembly :=
  assemble_from 0 ways levels rels.

(** [SimpleAreaAssembler::assemble_areas], whose result the driver stores
    in [data.areas]. *)
Definition assemble_areas (nodes : gmap Z geometry.Point) (ways : gmap Z (list Z))
    (rels : list Relation) (levels : list level_type) : list Area :=
  assembled (assemble nodes ways rels levels).

(** ** What it means for lines to chain into closed cycles *)

(** A line taken forwards or backwards. *)
Definition oriented (l o : list Z) : Prop := o = l \/ o = reverse l.

(** Each line ends in the point the next one starts from. *)
Fixpoint linked (os : list (list Z)) : Prop :=
  match os with
  | o1 :: ((o2 :: _) as t) => is_Some (last o1) /\ last o1 = head o2 /\ linked t
  | _ => True
  end.

(** A closed cycle of lines: linked, and the last line ends in the point the
    first one starts from. *)
Definition closed_cycle (os : list (list Z)) : Prop :=
  linked os /\
  exists first final p,
    head os = Some first /\ last os = Some final /\
    head first = Some p /\ last final = Some p.

(** The lines can be chained by shared endpoints into closed cycles: taken
    in some order and orientation, they split into closed cycles. *)
Definition chainable (ls : list (list Z)) : Prop :=
  exists (cycles : list (list (list Z))) (flat : list (list Z)),
    Forall closed_cycle cycles /\ ls ≡ₚ flat /\
    Forall2 oriented flat (concat cycles).

(** Whether the point [p] is an end of the line [l] an odd number of times,
    and of the lines [ls] an odd number of times. *)
Definition touches (l : list Z) (p : Z) : bool :=
  xorb (bool_decide (head l = Some p)) (bool_decide (last l = Some p)).

Fixpoint odd_at (ls : list (list Z)) (p : Z) : bool :=
  match ls with
  | [] => false
  | l :: ls' => xorb (touches l p) (odd_at ls' p)
  end.

End assembler.

(* ===================================================================== *)
(** * mapmaker/inspector.hpp                                              *)
(* ===================================================================== *)

Module inspector.

(** A boundary segment key: the unordered pair of two consecutive ring
    point ids. *)
Definition segment_key (a b : Z) : Z * Z := (Z.min a b, Z.max a b).

Fixpoint ring_segments (r : Ring) : list (Z * Z) :=
  match r with
  | a :: ((b :: _) as t) => segment_key a b :: ring_segments t
  | _ => []
  end.

Definition area_segments (a : Area) : list (Z * Z) :=
  concat (ring_segments <$> (outer_rings a ++ inner_rings a)).

(** The areas recorded for a key ([∅] for a key never seen). *)
Definition areas_at (idx : gmap (Z * Z) (gset Z)) (k : Z * Z) : gset Z :=
  default ∅ (idx !! k).

(** Phase one: the index from segment keys to the areas whose rings contain
    the segment. *)
Definition add_area (idx : gmap (Z * Z) (gset Z)) (a : Area) : gmap (Z * Z) (gset Z) :=
  foldl (fun m k => <[k := {[ area_id a ]} ∪ areas_at m k]> m) idx (area_segments a).

Definition build_index (areas : list Area) : gmap (Z * Z) (gset Z) :=
  foldl add_area ∅ areas.

(** Phase two: the areas that share a segment key with [a]. *)
Definition query (idx : gmap (Z * Z) (gset Z)) (a : Area) : gset Z :=
  ⋃ (areas_at idx <$> area_segments a) ∖ {[ area_id a ]}.

Definition neighbors_of (g : gmap Z (gset Z)) (i : Z) : gset Z :=
  default ∅ (g !! i).

Definition add_neighbors (idx : gmap (Z * Z) (gset Z)) (g : gmap Z (gset Z)) (a : Area)
    : gmap Z (gset Z) :=
  <[area_id a := query idx a ∪ neighbors_of g (area_id a)]> g.

Definition adjacency (areas : list Area) : gmap Z (gset Z) :=
  foldl (add_neighbors (build_index areas)) ∅ areas.

(** The ids reachable from [seen] in at most [fuel] steps. *)
Fixpoint reach (fuel : nat) (g : gmap Z (gset Z)) (seen : gset Z) : gset Z :=
  match fuel with
  | O => seen
  | S n => reach n g (seen ∪ ⋃ (neighbors_of g <$> elements seen))
  end.

(** Breadth-first labelling: every area not yet labelled starts a new
    component, which receives the next component id. *)
Definition label (g : gmap Z (gset Z)) (st : gmap Z Z * Z) (i : Z) : gmap Z Z * Z :=
  match fst st !! i with
  | Some _ => st
  | None =>
      (set_fold (fun j m => <[j := snd st]> m) (fst st) (reach (size g) g {[ i ]}),
       snd st + 1)
  end.

Definition component_map (g : gmap Z (gset Z)) (areas : list Area) : gmap Z Z :=
  fst (foldl (label g) (∅, 0) (area_id <$> areas)).

(** Modelled from the spec: mapmaker/inspector.hpp is not among the
    sources.  Section 4.4: an index from every segment key to the set of
    areas whose ring contains that segment is built first; two areas are
    adjacent iff they share at least one key; components come from a
    breadth-first traversal of the adjacency graph, and both results are
    derived jointly. *)
Definition get_relations (areas : list Area) : gmap Z (gset Z) * gmap Z Z :=
  let g := adjacency areas in (g, component_map g areas).

End inspector.

(* ===================================================================== *)
(** * mapmaker/filter.hpp                                                 *)
(* ===================================================================== *)

Module filter.

Definition origin : geometry.Point := {| geometry.x := 0; geometry.y := 0 |}.

Definition coordinate (nodes : gmap Z geometry.Point) (i : Z) : geometry.Point :=
  default origin (nodes !! i).

(** The shoelace sum over the consecutive points of a ring. *)
Fixpoint shoelace (nodes : gmap Z geometry.Point) (r : Ring) : double :=
  match r with
  | a :: ((b :: _) as t) =>
      let p := coordinate nodes a in
      let q := coordinate nodes b in
      (geometry.x p * geometry.y q - geometry.x q * geometry.y p
       + shoelace nodes t)%float
  | _ => 0%float
  end.

Definition ring_size (nodes : gmap Z geometry.Point) (r : Ring) : double :=
  (abs (shoelace nodes r) / 2)%float.

Definition total (ds : list double) : double := foldr PrimFloat.add 0%float ds.

(** The planar size of an area: its outer rings minus its holes. *)
Definition area_size (nodes : gmap Z geometry.Point) (a : Area) : double :=
  (total (ring_size nodes <$> outer_rings a)
   - total (ring_size nodes <$> inner_rings a))%float.

Definition in_component (components : gmap Z Z) (c : Z) (a : Area) : bool :=
  bool_decide (components !! area_id a = Some c).

Definition component_size (nodes : gmap Z geometry.Point) (components : gmap Z Z)
    (areas : list Area) (c : Z) : double :=
  total (area_size nodes <$> List.filter (in_component components c) areas).

Definition ratio (nodes : gmap Z geometry.Point) (components : gmap Z Z)
    (areas : list Area) (c : Z) (a : Area) : double :=
  (area_size nodes a / component_size nodes components areas c)%float.

(** An area stays unless it is in a component and its share of the
    component's size is below the tolerance. *)
Definition keeps (tolerance : double) (nodes : gmap Z geometry.Point)
    (components : gmap Z Z) (areas : list Area) (a : Area) : bool :=
  match components !! area_id a with
  | Some c => negb (ratio nodes components areas c a <? tolerance)%float
  | None => true
  end.

(** Modelled from the spec: mapmaker/filter.hpp is not among the sources.
    Section 4.5: the size of an area is the shoelace area of its outer
    rings minus that of its inner rings; for an area [a] in component [c]
    the ratio is [size(a)] over the sum of the sizes of the areas in [c],
    and [a] is removed when the ratio is below the tolerance. *)
Definition filter_areas (tolerance : double) (areas : list Area)
    (relations : list Relation) (components : gmap Z Z)
    (nodes : gmap Z geometry.Point) (ways : gmap Z (list Z)) : list Area :=
  List.filter (keeps tolerance nodes components areas) areas.



End filter.

(* ===================================================================== *)
(** * mapmaker/projector.hpp                                              *)
(* ===================================================================== *)

Module projector.

Import geometry.

Section Steps.

(** The angle conversion and the spherical projection of
    functions/project.hpp are taken as given functions on a coordinate
    pair. *)
Variables radian mercator : Point -> Point.

Definition normalize (i : double * double) (v : double) : double :=
  ((v - fst i) / (snd i - fst i))%float.

Definition remap (s t : double * double) (v : double) : double :=
  (fst t + (v - fst s) / (snd s - fst s) * (snd t - fst t))%float.

Definition project_point (p : create.Projection) (pt : Point) : Point :=
  match p with
  | create.RadianProjection => radian pt
  | create.MercatorProjection => mercator pt
  | create.UnitProjection ix iy =>
      {| x := normalize ix (x pt); y := normalize iy (y pt) |}
  | create.IntervalProjection sx sy tx ty =>
      {| x := remap sx tx (x pt); y := remap sy ty (y pt) |}
  end.

(** Modelled from the spec: mapmaker/projector.hpp is not among the
    sources.  Section 4.6: a step transforms the coordinate of every
    point in the global table. *)
Definition apply_projection (p : create.Projection) (nodes : gmap Z Point)
    : gmap Z Point :=
  project_point p <$> nodes.

End Steps.

Definition fmin (a b : double) : double := if (b <? a)%float then b else a.
Definition fmax (a b : double) : double := if (a <? b)%float then b else a.

Definition extend_bounds (r : Rectangle) (p : Point) : Rectangle :=
  {| min := {| x := fmin (x (min r)) (x p); y := fmin (y (min r)) (y p) |};
     max := {| x := fmax (x (max r)) (x p); y := fmax (y (max r)) (y p) |} |}.

(** Modelled from the spec: the coordinate bounds of the current point set
    (sections 4.6 and 9), the smallest axis-aligned rectangle that holds
    every point of the table; [None] for an empty table. *)
Definition bounds_of (nodes : gmap Z Point) : option Rectangle :=
  match snd <$> map_to_list nodes with
  | [] => None
  | p :: ps => Some (foldl extend_bounds {| min := p; max := p |} ps)
  end.

End projector.

(* ===================================================================== *)
(** * The run in closed form                                              *)
(* ===================================================================== *)

Module pipeline.

Import create.

Section Run.

Variable K : Components.
Variable o : Options.

(** Every validator accepts the options. *)
Definition accepted : Prop :=
  validate_file K "input" (input o) = None /\
  validate_levels K (territory_level o) (bonus_levels o) = None /\
  validate_dimensions K (width o) (height o) = None /\
  validate_epsilon K "compression-tolerance" (compression_epsilon o) = None /\
  validate_epsilon K "filter-tolerance" (filter_epsilon o) = None.

(** The message of the first validator that throws, in the order of the
    calls. *)
Definition rejection : option string :=
  match validate_file K "input" (input o) with
  | Some what => Some what
  | None =>
  match validate_levels K (territory_level o) (bonus_levels o) with
  | Some what => Some what
  | None =>
  match validate_dimensions K (width o) (height o) with
  | Some what => Some what
  | None =>
  match validate_epsilon K "compression-tolerance" (compression_epsilon o) with
  | Some what => Some what
  | None => validate_epsilon K "filter-tolerance" (filter_epsilon o)
  end end end end.

Definition prefix : string :=
  if String.eqb (output o) "" then default_output K (input o) else output o.

Definition read : DataContainer :=
  get_data K (input o) (territory_level o) (bonus_levels o).

(** The dataset after the compression step. *)
Definition compressed : DataContainer :=
  if (0 <? compression_epsilon o)%float
  then with_nodes_ways read
         (compress_ways K (compression_epsilon o) (nodes read) (ways read))
  else read.

(** The areas the direct assembler returns. *)
Definition territories : list Area :=
  simple_assemble_areas K (nodes compressed) (ways compressed)
    (relations compressed) [territory_level o].

(** The one result of the neighbor inspector. *)
Definition inspected : gmap Z (gset Z) * gmap Z Z :=
  get_relations K territories.

(** The areas after the filter step. *)
Definition filtered : list Area :=
  if (0 <? filter_epsilon o)%float
  then filter_areas K (filter_epsilon o) territories (relations compressed)
         (snd inspected) (nodes compressed) (ways compressed)
  else territories.

(** The areas after the bonus step. *)
Definition final_areas : list Area :=
  match bonus_levels o with
  | [] => filtered
  | _ :: _ =>
      complex_assemble_areas K (nodes compressed) (ways compressed)
        (relations compressed) filtered (bonus_levels o)
  end.

(** The point table after the radian and Mercator projections. *)
Definition projected : gmap Z geometry.Point :=
  apply_projection K MercatorProjection
    (apply_projection K RadianProjection (nodes compressed)).

Definition unit_step : Projection :=
  let bounds := default_rectangle K in
  UnitProjection
    (geometry.x (geometry.min bounds), geometry.x (geometry.max bounds))
    (geometry.y (geometry.min bounds), geometry.y (geometry.max bounds)).

Definition interval_step (w h : Z) : Projection :=
  IntervalProjection (0, 1)%float (0, 1)%float
    (0%float, double_of_Z w) (0%float, double_of_Z h).

(** The stages invoked up to the scaling block, most recent first. *)
Definition stages_before_scaling : list Stage :=
  [ApplyProjection MercatorProjection; ApplyProjection RadianProjection]
  ++ match bonus_levels o with [] => [] | _ :: _ => [AssembleBonuses] end
  ++ (if (0 <? filter_epsilon o)%float then [FilterAreas] else [])
  ++ [InspectNeighbors; AssembleTerritories]
  ++ (if (0 <? compression_epsilon o)%float then [CompressWays] else [])
  ++ [ReadData; ReadInfo].

(** The state when the scaling block is reached. *)
Definition before_scaling : State :=
  {| data := with_nodes (with_areas compressed final_areas) projected;
     neighbors := fst inspected;
     components := snd inspected;
     out_prefix := prefix;
     out_width := width o;
     out_height := height o;
     stages := stages_before_scaling |}.

(** The state a run that returns leaves, for the dimensions [w] and [h]
    the scaling block settles on. *)
Definition scaled (w h : Z) : State :=
  {| data := with_nodes (with_areas compressed final_areas)
               (apply_projection K (interval_step w h)
                  (apply_projection K unit_step projected));
     neighbors := fst inspected;
     components := snd inspected;
     out_prefix := prefix;
     out_width := w;
     out_height := h;
     stages := ApplyProjection (interval_step w h)
               :: ApplyProjection unit_step :: stages_before_scaling |}.

(** Modelled from the spec: the dimensions section 4.6 asks for, computed
    from the bounds of the point table as it stands after the radian and
    Mercator projections; [None] when the table is empty or the conversion
    is undefined. *)
Definition expected_dimensions : option (Z * Z) :=
  match projector.bounds_of projected with
  | Some bounds => auto_dimensions bounds (width o) (height o)
  | None => None
  end.

Definition outcome : (Abort + unit) * State :=
  match rejection with
  | Some what => (inl (Thrown what), initial o)
  | None =>
      match auto_dimensions (default_rectangle K) (width o) (height o) with
      | Some (w, h) => (inr tt, scaled w h)
      | None => (inl Undefined, before_scaling)
      end
  end.

End Run.

(** The dimensions a run settles on, when it returns. *)
Definition dimensions_of (r : (Abort + unit) * State) : option (Z * Z) :=
  match fst r with
  | inr _ => Some (out_width (snd r), out_height (snd r))
  | inl _ => None
  end.

Definition is_inspection (st : Stage) : bool :=
  match st with
  | InspectNeighbors => true
  | _ => false
  end.

End pipeline.

(* ===================================================================== *)
(** * A small dataset and a complete set of components                    *)
(* ===================================================================== *)

Module example.

Definition P (a b : double) : geometry.Point :=
  {| geometry.x := a; geometry.y := b |}.

(** Two rectangles side by side, 7 by 1 and 1 by 1, that share the edge
    between the points 2 and 5:
<<
    4 ------------- 5 - 6
    |               |   |
    1 ------------- 2 - 3
>>
    The boundary of the first is split over two lines.  A third relation
    has a single open line. *)
Definition relation_a : Relation :=
  {| relation_id := 10; level := 4;
     members := [ {| ref := 100; role := outer |};
                  {| ref := 102; role := outer |} ] |}.

Definition relation_b : Relation :=
  {| relation_id := 11; level := 4;
     members := [ {| ref := 101; role := outer |} ] |}.

Definition relation_open : Relation :=
  {| relation_id := 12; level := 4;
     members := [ {| ref := 103; role := outer |} ] |}.

Definition dataset : DataContainer :=
  {| nodes := list_to_map [(1, P 0 0); (2, P 7 0); (3, P 8 0);
                           (4, P 0 1); (5, P 7 1); (6, P 8 1)];
     ways := list_to_map [(100, [1; 2; 5]); (101, [2; 3; 6; 5; 2]);
                          (102, [1; 4; 5]); (103, [1; 3])];
     relations := [relation_a; relation_b; relation_open];
     areas := [];
     incomplete_relations := ∅ |}.

Definition readable (path : string) : bool := String.eqb path "map.osm".

(** The components of the specification around a dataset [d].  The reader
    returns the dataset; the compressor and the bonus assembler, which the
    options below never invoke, and the two spherical steps leave their
    input as it is. *)
Definition components (d : DataContainer) (bounds : geometry.Rectangle)
    : create.Components :=
  {| create.validate_file := validate.validate_file readable;
     create.validate_levels := validate.validate_levels;
     create.validate_dimensions := validate.validate_dimensions;
     create.validate_epsilon := validate.validate_epsilon;
     create.default_output := fun input => ("../out/" ++ input)%string;
     create.get_data := fun _ _ _ => d;
     create.compress_ways := fun _ n w => (n, w);
     create.simple_assemble_areas := assembler.assemble_areas;
     create.complex_assemble_areas := fun _ _ _ a _ => a;
     create.get_relations := inspector.get_relations;
     create.filter_areas := filter.filter_areas;
     create.apply_projection := projector.apply_projection id id;
     create.default_rectangle := bounds |}.

(** The components around the dataset, with the rectangle whose coordinates
    are all zero for the default-constructed one. *)
Definition K : create.Components := components dataset geometry.zero.

(** Another point table, twice as high. *)
Definition tall : DataContainer :=
  {| nodes := list_to_map [(1, P 0 0); (2, P 7 0); (3, P 8 0);
                           (4, P 0 2); (5, P 7 2); (6, P 8 2)];
     ways := ways dataset;
     relations := relations dataset;
     areas := [];
     incomplete_relations := ∅ |}.

(** Options with both dimensions given and the filter switched on. *)
Definition filtering : create.Options :=
  {| create.input := "map.osm"; create.output := "";
     create.territory_level := 4; create.bonus_levels := [];
     create.width := 1000; create.height := 500;
     create.compression_epsilon := 0; create.filter_epsilon := 0.25;
     create.verbose := false |}.

(** Options that leave the width to be computed. *)
Definition auto_width : create.Options :=
  {| create.input := "map.osm"; create.output := "";
     create.territory_level := 4; create.bonus_levels := [];
     create.width := 0; create.height := 100;
     create.compression_epsilon := 0; create.filter_epsilon := 0;
     create.verbose := false |}.

(** Options without a territory level: the parser's default is 0. *)
Definition no_level : create.Options :=
  {| create.input := "map.osm"; create.output := "";
     create.territory_level := 0; create.bonus_levels := [];
     create.width := 1000; create.height := 0;
     create.compression_epsilon := 0; create.filter_epsilon := 0;
     create.verbose := false |}.

Definition area_a : Area :=
  {| area_id := 0; area_relation := 10; area_level := 4;
     outer_rings := [[1; 2; 5; 4; 1]]; inner_rings := [] |}.

Definition area_b : Area :=
  {| area_id := 1; area_relation := 11; area_level := 4;
     outer_rings := [[2; 3; 6; 5; 2]]; inner_rings := [] |}.

End example.

(* ===================================================================== *)
(** * The option descriptions and the figures the driver reports          *)
(* ===================================================================== *)

Module options.

Import create.

(** What the variables of [run] hold after parsing when an option is not
    given (lines 62 to 87): the declared [default_value], and an empty path
    or vector where none is declared. *)
Definition defaults : Options :=
  {| input := ""; output := "";
     territory_level := 0; bonus_levels := [];
     width := 1000; height := 0;
     compression_epsilon := 0; filter_epsilon := 0;
     verbose := false |}.

(** A command line that gives the input path and the territory level and
    nothing else. *)
Definition given (path : string) (t : level_type) : Options :=
  {| input := path; output := output defaults;
     territory_level := t; bonus_levels := bonus_levels defaults;
     width := width defaults; height := height defaults;
     compression_epsilon := compression_epsilon defaults;
     filter_epsilon := filter_epsilon defaults;
     verbose := verbose defaults |}.

End options.

Module report.

Import create pipeline.

(** Subtraction of two [size_t] values. *)
Definition size_t_sub (a b : Z) : Z := (a - b) mod 2 ^ 64.

(** [data.areas.size()] *)
Definition size (l : list Area) : Z := Z.of_nat (length l).

(** [areas_after - areas_before], the number of bonus areas the driver prints
    (lines 178 to 181); nothing is printed when no bonus level is given. *)
Definition bonus_areas (K : Components) (o : Options) : option Z :=
  match bonus_levels o with
  | [] => None
  | _ :: _ => Some (size_t_sub (size (final_areas K o)) (size (filtered K o)))
  end.

(** The stages of the pipeline in the order [run] has them in its text, with
    the two scaling steps for the dimensions [w] and [h]. *)
Definition program_order (K : Components) (w h : Z) : list Stage :=
  [ReadInfo; ReadData; CompressWays; AssembleTerritories; InspectNeighbors;
   FilterAreas; AssembleBonuses;
   ApplyProjection RadianProjection; ApplyProjection MercatorProjection;
   ApplyProjection (unit_step K); ApplyProjection (interval_step w h)].

End report.

Module scenario.

(** Options with a bonus level besides the territory level. *)
Definition with_bonus : create.Options :=
  {| create.input := "map.osm"; create.output := "";
     create.territory_level := 4; create.bonus_levels := [2];
     create.width := 1000; create.height := 500;
     create.compression_epsilon := 0; create.filter_epsilon := 0;
     create.verbose := false |}.

(** Options that leave both dimensions to be computed. *)
Definition both_auto : create.Options :=
  {| create.input := "map.osm"; create.output := "";
     create.territory_level := 4; create.bonus_levels := [];
     create.width := 0; create.height := 0;
     create.compression_epsilon := 0; create.filter_epsilon := 0;
     create.verbose := false |}.

Definition unit_square : geometry.Rectangle :=
  {| geometry.min := example.P 0 0; geometry.max := example.P 1 1 |}.

(** The components of the example with a unit square for the
    default-constructed rectangle and a validator that lets every pair of
    dimensions pass. *)
Definition lenient : create.Components :=
  {| create.validate_file := validate.validate_file example.readable;
     create.validate_levels := validate.validate_levels;
     create.validate_dimensions := fun _ _ => None;
     create.validate_epsilon := validate.validate_epsilon;
     create.default_output := create.default_output example.K;
     create.get_data := create.get_data example.K;
     create.compress_ways := create.compress_ways example.K;
     create.simple_assemble_areas := assembler.assemble_areas;
     create.complex_assemble_areas := create.complex_assemble_areas example.K;
     create.get_relations := inspector.get_relations;
     create.filter_areas := filter.filter_areas;
     create.apply_projection := projector.apply_projection id id;
     create.default_rectangle := unit_square |}.

End scenario.

Module malformed.




End malformed.

Module ieee.

(** A [double] that is a zero or a finite nonzero number: neither an infinity
    nor a NaN. *)
Definition finite (d : double) : bool :=
  match Prim2SF d with
  | S754_zero _ | S754_finite _ _ _ => true
  | S754_infinity _ | S754_nan => false
  end.

End ieee.

Module degenerate.

(** The components of [scenario.lenient] with the all-zero rectangle for
    the default-constructed one. *)
Definition lenient : create.Components :=
  {| create.validate_file := create.validate_file scenario.lenient;
     create.validate_levels := create.validate_levels scenario.lenient;
     create.validate_dimensions := create.validate_dimensions scenario.lenient;
     create.validate_epsilon := create.validate_epsilon scenario.lenient;
     create.default_output := create.default_output scenario.lenient;
     create.get_data := create.get_data scenario.lenient;
     create.compress_ways := create.compress_ways scenario.lenient;
     create.simple_assemble_areas := create.simple_assemble_areas scenario.lenient;
     create.complex_assemble_areas := create.complex_assemble_areas scenario.lenient;
     create.get_relations := create.get_relations scenario.lenient;
     create.filter_areas := create.filter_areas scenario.lenient;
     create.apply_projection := create.apply_projection scenario.lenient;
     create.default_rectangle := geometry.zero |}.

End degenerate.


(* ===================================================================== *)
(** * Facts about the identifier type                                     *)
(* ===================================================================== *)

Section ObjectId.

Import memory.

Lemma representable_range dm z :
  representable dm z <->
  - 2 ^ (object_id_bits dm - 1) <= z < 2 ^ (object_id_bits dm - 1).
Proof. unfold representable, object_id_min, object_id_max. lia. Qed.

Lemma to_object_id_representable dm z :
  representable dm z -> to_object_id dm z = z.
Proof.
  intros H. apply representable_range in H. unfold to_object_id.
  assert (Hb : 2 ^ object_id_bits dm = 2 * 2 ^ (object_id_bits dm - 1)).
  { destruct dm; reflexivity. }
  rewrite Z.mod_small by lia. lia.
Qed.

(** Under the other data models a [long] has 32 bits, and an id above
    [2^31] does not fit. *)
Lemma long_is_narrower_elsewhere dm :
  dm <> LP64 -> ~ representable dm (2 ^ 31 + 1).
Proof.
  intros Hdm H. apply representable_range in H.
  destruct dm; [congruence | |]; cbn in H; lia.
Qed.




End ObjectId.

(* ===================================================================== *)
(** * Facts about the driver                                              *)
(* ===================================================================== *)

Section Driver.

Import create pipeline.

(** Whatever the components are, a run is its closed form. *)
Lemma exec_outcome K o : exec K o = outcome K o.
Proof.
  unfold exec, outcome, rejection, run, bind, check.
  destruct (validate_file K "input" (input o)); [reflexivity |].
  destruct (validate_levels K (territory_level o) (bonus_levels o)); [reflexivity |].
  destruct (validate_dimensions K (width o) (height o)); [reflexivity |].
  destruct (validate_epsilon K "compression-tolerance" (compression_epsilon o));
    [reflexivity |].
  destruct (validate_epsilon K "filter-tolerance" (filter_epsilon o)); [reflexivity |].
  unfold before_scaling, scaled, stages_before_scaling, final_areas, filtered,
    inspected, territories, projected, compressed, read, prefix, project, bind.
  cbn.
  destruct (String.eqb (output o) ""); cbn;
    destruct (0 <? compression_epsilon o)%float; cbn;
    destruct (0 <? filter_epsilon o)%float; cbn;
    destruct (bonus_levels o); cbn;
    destruct (auto_dimensions (default_rectangle K) (width o) (height o))
      as [[w h] |]; reflexivity.
Qed.

Lemma accepted_rejection K o : accepted K o <-> rejection K o = None.
Proof.
  unfold accepted, rejection. split.
  - intros (-> & -> & -> & -> & ->). reflexivity.
  - destruct (validate_file K "input" (input o)); [discriminate |].
    destruct (validate_levels K (territory_level o) (bonus_levels o)); [discriminate |].
    destruct (validate_dimensions K (width o) (height o)); [discriminate |].
    destruct (validate_epsilon K "compression-tolerance" (compression_epsilon o));
      [discriminate |].
    intros ->. repeat split.
Qed.

Lemma exec_accepted K o :
  accepted K o ->
  exec K o =
    match auto_dimensions (default_rectangle K) (width o) (height o) with
    | Some (w, h) => (inr tt, scaled K o w h)
    | None => (inl Undefined, before_scaling K o)
    end.
Proof.
  intros H. rewrite exec_outcome. unfold outcome.
  apply accepted_rejection in H. rewrite H. reflexivity.
Qed.

(** The state of an accepted run holds the same areas, graph and component
    map whether or not the scaling block succeeds. *)
Lemma exec_accepted_state K o :
  accepted K o ->
  areas (data (snd (exec K o))) = final_areas K o /\
  neighbors (snd (exec K o)) = fst (inspected K o) /\
  components (snd (exec K o)) = snd (inspected K o) /\
  exists later, stages (snd (exec K o)) = later ++ stages_before_scaling o /\
                forall st, st ∈ later -> exists p, st = ApplyProjection p.
Proof.
  intros H. rewrite (exec_accepted K o H).
  destruct (auto_dimensions _ _ _) as [[w h] |]; cbn; repeat split.
  - exists [ApplyProjection (interval_step w h); ApplyProjection (unit_step K)].
    split; [reflexivity |]. intros st Hst.
    apply elem_of_cons in Hst as [-> | Hst]; [eauto |].
    apply list_elem_of_singleton in Hst as ->. eauto.
  - exists []. split; [reflexivity |]. intros st Hst. inversion Hst.
Qed.

(** C7: if a validator rejects the options (the input path, the levels, the
    dimensions, or one of the two tolerances), [run] ends with the
    exception of the first validator that throws, before any stage has been
    invoked: no stage is recorded, the dataset is still empty and no graph,
    component map or projected point exists. *)
Theorem run_rejects_before_any_stage K o :
  ~ accepted K o ->
  exists what,
    rejection K o = Some what /\
    exec K o = (inl (Thrown what), initial o) /\
    stages (snd (exec K o)) = [] /\
    data (snd (exec K o)) = empty_data /\
    neighbors (snd (exec K o)) = ∅ /\
    components (snd (exec K o)) = ∅.
Proof.
  intros H. rewrite accepted_rejection in H.
  destruct (rejection K o) as [what |] eqn:Hr; [| congruence].
  exists what. rewrite exec_outcome. unfold outcome. rewrite Hr.
  repeat split.
Qed.

Lemma run_rejects_before_any_stage_witness :
  ~ accepted example.K example.no_level /\
  exists what,
    rejection example.K example.no_level = Some what /\
    exec example.K example.no_level = (inl (Thrown what), initial example.no_level) /\
    stages (snd (exec example.K example.no_level)) = [] /\
    data (snd (exec example.K example.no_level)) = empty_data /\
    neighbors (snd (exec example.K example.no_level)) = ∅ /\
    components (snd (exec example.K example.no_level)) = ∅.
Proof.
  assert (H : ~ accepted example.K example.no_level).
  { intros (_ & H & _). vm_compute in H. discriminate. }
  split; [exact H |].
  exact (run_rejects_before_any_stage example.K example.no_level H).
Defined.

(** The validators of the specification reject each of the values it lists:
    an unreadable input path, a level outside 1 to 12, a bonus level equal to
    the territory level, two dimensions that are both 0, and a negative
    tolerance. *)
Lemma listed_values_are_rejected K readable o :
  validate_file K = validate.validate_file readable ->
  validate_levels K = validate.validate_levels ->
  validate_dimensions K = validate.validate_dimensions ->
  validate_epsilon K = validate.validate_epsilon ->
  readable (input o) = false \/
  ~ 1 <= territory_level o <= 12 \/
  (exists b, b ∈ bonus_levels o /\ (~ 1 <= b <= 12 \/ b = territory_level o)) \/
  (width o = 0 /\ height o = 0) \/
  (compression_epsilon o <? 0)%float = true \/
  (filter_epsilon o <? 0)%float = true ->
  ~ accepted K o.
Proof.
  intros Hf Hl Hd He Hbad (H1 & H2 & H3 & H4 & H5).
  rewrite Hf in H1. rewrite Hl in H2. rewrite Hd in H3. rewrite He in H4, H5.
  unfold validate.validate_file in H1. unfold validate.validate_levels in H2.
  unfold validate.validate_dimensions in H3.
  unfold validate.validate_epsilon in H4, H5.
  destruct Hbad as [Hbad | [Hbad | [(b & Hb & Hbad) | [[Hw Hh] | [Hbad | Hbad]]]]].
  - rewrite Hbad in H1. discriminate.
  - destruct (validate.valid_level (territory_level o)) eqn:Hv; [| discriminate].
    unfold validate.valid_level in Hv. lia.
  - destruct (negb (validate.valid_level (territory_level o))); [discriminate |].
    destruct (existsb _ (bonus_levels o)) eqn:Hex; [discriminate |].
    assert (Hex' : existsb
              (fun b => negb (validate.valid_level b) || (b =? territory_level o))
              (bonus_levels o) = true).
    { apply existsb_exists. exists b. split; [apply list_elem_of_In, Hb |].
      unfold validate.valid_level. destruct Hbad as [Hbad | ->]; lia. }
    congruence.
  - rewrite Hw, Hh in H3. discriminate.
  - rewrite Hbad in H4. discriminate.
  - rewrite Hbad in H5. discriminate.
Qed.

End Driver.

Section Scaling.

Import create pipeline.

Lemma size_t_of_double_nan d : Prim2SF d = S754_nan -> size_t_of_double d = None.
Proof. intros H. unfold size_t_of_double, Z_of_double_trunc. rewrite H. reflexivity. Qed.

Lemma mul_nan_l d : Prim2SF (nan * d) = S754_nan.
Proof. rewrite mul_spec. reflexivity. Qed.

(** With the all-zero rectangle the quotient is [0 / 0], and the conversion
    of the product to [size_t] is undefined. *)
Lemma auto_dimensions_zero w h :
  w = 0 \/ h = 0 -> auto_dimensions geometry.zero w h = None.
Proof.
  intros H. unfold auto_dimensions.
  change (geometry.width geometry.zero / geometry.height geometry.zero)%float with nan.
  change (geometry.height geometry.zero / geometry.width geometry.zero)%float with nan.
  rewrite !size_t_of_double_nan by apply mul_nan_l.
  destruct (w =? 0) eqn:Hw; [reflexivity |].
  destruct (h =? 0) eqn:Hh; [reflexivity |]. lia.
Qed.

(** C10: when exactly one of width and height is 0, the run divides by the
    height (width 0) or the width (height 0) of the default-constructed
    rectangle without testing the divisor; that rectangle, not one computed
    from the point table, also supplies the intervals of the unit projection;
    and when its coordinates are all zero the divisor is zero and assigning
    the product to the dimension is undefined. *)
Theorem run_scales_by_default_rectangle K o :
  accepted K o ->
  (width o = 0 /\ height o <> 0) \/ (width o <> 0 /\ height o = 0) ->
  let bounds := default_rectangle K in
  let divisor :=
    if width o =? 0 then geometry.height bounds else geometry.width bounds in
  auto_divisor bounds (width o) (height o) = Some divisor /\
  exec K o =
    match (if width o =? 0
           then option_map (fun w => (w, height o))
                  (size_t_of_double
                     (geometry.width bounds / divisor * double_of_Z (height o))%float)
           else option_map (fun h => (width o, h))
                  (size_t_of_double
                     (geometry.height bounds / divisor * double_of_Z (width o))%float))
    with
    | Some (w, h) => (inr tt, scaled K o w h)
    | None => (inl Undefined, before_scaling K o)
    end /\
  (fst (exec K o) = inr tt ->
   exists w h,
     stages (snd (exec K o)) =
       ApplyProjection (interval_step w h)
       :: ApplyProjection
            (UnitProjection
               (geometry.x (geometry.min bounds), geometry.x (geometry.max bounds))
               (geometry.y (geometry.min bounds), geometry.y (geometry.max bounds)))
       :: stages_before_scaling o) /\
  (bounds = geometry.zero ->
   divisor = 0%float /\ exec K o = (inl Undefined, before_scaling K o)).
Proof.
  intros Hacc Hone bounds divisor.
  assert (Hor : (width o =? 0) || (height o =? 0) = true).
  { destruct Hone as [[-> _] | [_ ->]]; [reflexivity | apply orb_true_r]. }
  pose proof (exec_accepted K o Hacc) as Hexec. fold bounds in Hexec.
  split; [| split; [| split]].
  - unfold auto_divisor. rewrite Hor. reflexivity.
  - rewrite Hexec. unfold auto_dimensions, divisor. rewrite Hor.
    destruct (width o =? 0); destruct (size_t_of_double _); reflexivity.
  - rewrite Hexec. destruct (auto_dimensions bounds (width o) (height o))
      as [[w h] |]; cbn; [| discriminate].
    intros _. exists w, h. reflexivity.
  - intros Hz. split.
    + unfold divisor. rewrite Hz. destruct (width o =? 0); reflexivity.
    + rewrite Hexec, Hz, auto_dimensions_zero; [reflexivity |].
      destruct Hone as [[-> _] | [_ ->]]; auto.
Qed.

Lemma run_scales_by_default_rectangle_witness :
  accepted example.K example.auto_width /\
  ((width example.auto_width = 0 /\ height example.auto_width <> 0) \/
   (width example.auto_width <> 0 /\ height example.auto_width = 0)) /\
  auto_divisor geometry.zero 0 100 = Some 0%float /\
  exec example.K example.auto_width =
    (inl Undefined, before_scaling example.K example.auto_width).
Proof.
  assert (Hacc : accepted example.K example.auto_width) by (repeat split).
  assert (Hone : (width example.auto_width = 0 /\ height example.auto_width <> 0) \/
                 (width example.auto_width <> 0 /\ height example.auto_width = 0)).
  { left. split; [reflexivity | discriminate]. }
  split; [exact Hacc |]. split; [exact Hone |].
  destruct (run_scales_by_default_rectangle example.K example.auto_width Hacc Hone)
    as (Hdiv & _ & _ & Hzero).
  split; [exact Hdiv |]. apply Hzero. reflexivity.
Defined.

(** The dimensions of an accepted run are those of the scaling block applied
    to the default-constructed rectangle. *)
Lemma dimensions_of_exec K o :
  accepted K o ->
  dimensions_of (exec K o) =
    auto_dimensions (default_rectangle K) (width o) (height o).
Proof.
  intros H. rewrite (exec_accepted K o H).
  destruct (auto_dimensions _ _ _) as [[w h] |]; reflexivity.
Qed.

(** C1: the automatically computed width does not follow the bounds of the
    projected point table.  The two example datasets have projected bounds of
    8 by 1 and 8 by 2, so for a height of 100 the width ought to be 800 for
    the one and 400 for the other; whatever the default-constructed rectangle
    holds, the run settles on the same dimensions for both. *)
Theorem auto_width_ignores_point_table (bounds : geometry.Rectangle) :
  expected_dimensions (example.components example.dataset bounds) example.auto_width
    = Some (800, 100) /\
  expected_dimensions (example.components example.tall bounds) example.auto_width
    = Some (400, 100) /\
  dimensions_of (exec (example.components example.dataset bounds) example.auto_width)
    = auto_dimensions bounds 0 100 /\
  dimensions_of (exec (example.components example.tall bounds) example.auto_width)
    = auto_dimensions bounds 0 100 /\
  (bounds = geometry.zero ->
   fst (exec (example.components example.dataset bounds) example.auto_width)
     = inl Undefined).
Proof.
  split; [vm_compute; reflexivity |]. split; [vm_compute; reflexivity |].
  split; [apply (dimensions_of_exec (example.components example.dataset bounds)
                   example.auto_width); repeat split |].
  split; [apply (dimensions_of_exec (example.components example.tall bounds)
                   example.auto_width); repeat split |].
  intros ->. vm_compute. reflexivity.
Qed.

End Scaling.

Section Relations.

Import create pipeline.

Lemma stages_before_scaling_inspections o :
  List.filter is_inspection (stages_before_scaling o) = [InspectNeighbors].
Proof.
  unfold stages_before_scaling.
  destruct (bonus_levels o); destruct (0 <? filter_epsilon o)%float;
    destruct (0 <? compression_epsilon o)%float; reflexivity.
Qed.

(** At tolerance 0 the filter is not invoked, and without bonus levels
    neither is the bonus assembler: the areas are left as they are. *)
Lemma run_skips_filter_at_zero K o :
  (0 <? filter_epsilon o)%float = false -> filtered K o = territories K o.
Proof. intros H. unfold filtered. rewrite H. reflexivity. Qed.

Lemma run_skips_bonus_step_without_levels K o :
  bonus_levels o = [] ->
  final_areas K o = filtered K o /\ AssembleBonuses ∉ stages_before_scaling o.
Proof.
  intros H. unfold final_areas, stages_before_scaling. rewrite H. split; [reflexivity |].
  intros Hin. cbn in Hin.
  destruct (0 <? filter_epsilon o)%float; destruct (0 <? compression_epsilon o)%float;
    cbn in Hin; repeat (apply elem_of_cons in Hin as [Hin | Hin]; [discriminate |]);
    inversion Hin.
Qed.

(** At tolerance 0 the compressor is not invoked: the point and line tables
    are those the reader returned. *)
Lemma run_skips_compression_at_zero K o :
  (0 <? compression_epsilon o)%float = false ->
  compressed K o = read K o /\ CompressWays ∉ stages_before_scaling o.
Proof.
  intros H. unfold compressed, stages_before_scaling. rewrite H. split; [reflexivity |].
  intros Hin.
  destruct (bonus_levels o); destruct (0 <? filter_epsilon o)%float;
    cbn in Hin; repeat (apply elem_of_cons in Hin as [Hin | Hin]; [discriminate |]);
    inversion Hin.
Qed.

(** C2, as the code has it: the adjacency graph and the component map are
    derived jointly and exactly once, from the territory areas the direct
    assembler returned; the filter, the next stage, reads that component map
    together with those same areas; and neither result is recomputed when the
    filter or the bonus assembler has changed the area set, the stages that
    follow being projections only. *)
Theorem run_inspects_territories_once K o :
  accepted K o ->
  (neighbors (snd (exec K o)), components (snd (exec K o)))
    = get_relations K (territories K o) /\
  areas (data (snd (exec K o))) =
    match bonus_levels o with
    | [] => filtered K o
    | _ :: _ =>
        complex_assemble_areas K (nodes (compressed K o)) (ways (compressed K o))
          (relations (compressed K o)) (filtered K o) (bonus_levels o)
    end /\
  filtered K o =
    (if (0 <? filter_epsilon o)%float
     then filter_areas K (filter_epsilon o) (territories K o)
            (relations (compressed K o)) (snd (get_relations K (territories K o)))
            (nodes (compressed K o)) (ways (compressed K o))
     else territories K o) /\
  (exists later,
     stages (snd (exec K o)) = later ++ stages_before_scaling o /\
     forall st, st ∈ later -> exists p, st = ApplyProjection p) /\
  List.filter is_inspection (stages (snd (exec K o))) = [InspectNeighbors].
Proof.
  intros H. destruct (exec_accepted_state K o H) as (Ha & Hn & Hc & later & Hs & Hl).
  split; [| split; [| split; [| split]]].
  - rewrite Hn, Hc. unfold inspected. destruct (get_relations K _); reflexivity.
  - exact Ha.
  - reflexivity.
  - exists later. split; assumption.
  - rewrite Hs, List.filter_app, stages_before_scaling_inspections.
    replace (List.filter is_inspection later) with (@nil Stage); [reflexivity |].
    symmetry. clear Hs. induction later as [| st later IH]; [reflexivity |].
    cbn. destruct (Hl st) as [p ->]; [left |]. cbn. apply IH.
    intros st' Hst'. apply Hl. right. exact Hst'.
Qed.

Lemma run_inspects_territories_once_witness :
  accepted example.K example.filtering /\
  (neighbors (snd (exec example.K example.filtering)),
   components (snd (exec example.K example.filtering)))
    = inspector.get_relations [example.area_a; example.area_b] /\
  areas (data (snd (exec example.K example.filtering))) = [example.area_a].
Proof.
  assert (Hacc : accepted example.K example.filtering).
  { unfold accepted. vm_compute. repeat split. }
  split; [exact Hacc |].
  destruct (run_inspects_territories_once example.K example.filtering Hacc)
    as (Hrel & Hareas & _ & _ & _).
  split; [exact Hrel |]. rewrite Hareas. vm_compute. reflexivity.
Defined.

(** C2 fails as stated: in this run the filter removes the second area, the
    run returns, and the graph and component map it leaves are still those of
    both areas, not those of the area that remains. *)
Lemma run_leaves_relations_of_removed_area :
  fst (exec example.K example.filtering) = inr tt /\
  territories example.K example.filtering = [example.area_a; example.area_b] /\
  areas (data (snd (exec example.K example.filtering))) = [example.area_a] /\
  neighbors (snd (exec example.K example.filtering)) !! 1 = Some {[ 0 ]} /\
  components (snd (exec example.K example.filtering)) !! 1 = Some 0 /\
  fst (get_relations example.K
         (areas (data (snd (exec example.K example.filtering))))) !! 1 = None /\
  snd (get_relations example.K
         (areas (data (snd (exec example.K example.filtering))))) !! 1 = None /\
  (neighbors (snd (exec example.K example.filtering)),
   components (snd (exec example.K example.filtering)))
  <> get_relations example.K
       (areas (data (snd (exec example.K example.filtering)))).
Proof.
  assert (Hn : neighbors (snd (exec example.K example.filtering)) !! 1 = Some {[ 0 ]}).
  { vm_compute. reflexivity. }
  assert (Hg : fst (get_relations example.K
                     (areas (data (snd (exec example.K example.filtering))))) !! 1
               = None).
  { vm_compute. reflexivity. }
  split; [vm_compute; reflexivity |]. split; [vm_compute; reflexivity |].
  split; [vm_compute; reflexivity |]. split; [exact Hn |].
  split; [vm_compute; reflexivity |]. split; [exact Hg |].
  split; [vm_compute; reflexivity |].
  intros Heq. apply (f_equal (fun r => fst r !! 1)) in Heq.
  vm_compute in Heq. discriminate Heq.
Qed.

End Relations.

(* ===================================================================== *)
(** * Facts about the direct assembler                                    *)
(* ===================================================================== *)

Section Assembler.

Import assembler.

Lemma last_app_tail (chain o : list Z) e :
  last chain = Some e -> head o = Some e -> last (chain ++ tail o) = last o.
Proof.
  intros Hc Ho. destruct o as [| a [| b o']]; [discriminate | |].
  - cbn in *. rewrite app_nil_r. congruence.
  - cbn [tail]. rewrite last_app_cons. rewrite !last_cons.
    destruct (last o'); reflexivity.
Qed.

Lemma head_app_nonempty {A} (l k : list A) x :
  head l = Some x -> head (l ++ k) = Some x.
Proof. destruct l; [discriminate | exact id]. Qed.

Lemma pick_spec e ls ext rest :
  pick e ls = Some (ext, rest) ->
  exists l o, oriented l o /\ head o = Some e /\ ext = tail o /\ ls ≡ₚ l :: rest.
Proof.
  revert ext rest. induction ls as [| l ls IH]; intros ext rest H; [discriminate |].
  cbn in H. case_bool_decide as Hh.
  - injection H as <- <-. exists l, l.
    split; [left; reflexivity |]. split; [exact Hh |]. split; reflexivity.
  - case_bool_decide as Hl.
    + injection H as <- <-. exists l, (reverse l).
      split; [right; reflexivity |].
      split; [rewrite head_reverse; exact Hl |]. split; reflexivity.
    + destruct (pick e ls) as [[ext' rest'] |] eqn:Hp; [| discriminate].
      injection H as <- <-.
      destruct (IH _ _ eq_refl) as (l' & o & Ho & Hhd & Hext & Hperm).
      exists l', o. split; [exact Ho |]. split; [exact Hhd |].
      split; [exact Hext |]. rewrite Hperm. apply Permutation_swap.
Qed.

Lemma linked_snoc os o final :
  linked os -> last os = Some final ->
  is_Some (last final) -> last final = head o -> linked (os ++ [o]).
Proof.
  revert final. induction os as [| o1 os IH]; intros final Hl Hlast Hs Hh;
    [discriminate |].
  destruct os as [| o2 os].
  - cbn in Hlast. injection Hlast as ->. cbn. auto.
  - destruct Hl as (H1 & H2 & H3). cbn [app linked]. repeat split; try assumption.
    apply (IH final); try assumption.
Qed.

(** A ring the greedy chaining emits closes the lines it has consumed, on top
    of those [os] the chain was built from, into a cycle. *)
Lemma extend_spec fuel :
  forall chain ls ring rest os first final p e,
    extend fuel chain ls = Some (ring, rest) ->
    linked os -> head os = Some first -> last os = Some final ->
    head first = Some p -> head chain = Some p ->
    last final = Some e -> last chain = Some e ->
    exists os' used,
      Forall2 oriented used os' /\ ls ≡ₚ used ++ rest /\ closed_cycle (os ++ os').
Proof.
  induction fuel as [| fuel IH];
    intros chain ls ring rest os first final p e H Hl Hf Hfin Hp Hcp He Hce;
    cbn in H; destruct (is_closed chain) eqn:Hclosed.
  1, 3: injection H as <- <-; exists [], []; rewrite app_nil_r;
        (split; [constructor |]); (split; [reflexivity |]);
        (split; [exact Hl |]); exists first, final, p;
        unfold is_closed in Hclosed; rewrite Hcp, Hce in Hclosed;
        apply bool_decide_eq_true in Hclosed; subst e; auto.
  - discriminate.
  - rewrite Hce in H.
    destruct (pick e ls) as [[ext rest1] |] eqn:Hpick; [| discriminate].
    destruct (pick_spec _ _ _ _ Hpick) as (l & o & Hor & Hho & -> & Hperm).
    assert (Hlo : is_Some (last o)).
    { destruct o; [discriminate |]. rewrite last_is_Some. discriminate. }
    destruct Hlo as [e' He'].
    destruct (IH (chain ++ tail o) rest1 ring rest (os ++ [o]) first o p e' H)
      as (os' & used & Hused & Hrest & Hcyc).
    + apply (linked_snoc os o final); [assumption .. | eauto | congruence].
    + destruct os; [discriminate | exact Hf].
    + apply last_snoc.
    + exact Hp.
    + apply head_app_nonempty, Hcp.
    + exact He'.
    + rewrite (last_app_tail chain o e); assumption.
    + exists (o :: os'), (l :: used). split; [constructor; assumption |].
      split; [rewrite Hperm, Hrest; reflexivity |].
      rewrite <- app_assoc in Hcyc. exact Hcyc.
Qed.

Lemma close_rings_chainable fuel :
  forall ls rs, close_rings fuel ls = Some rs -> chainable ls.
Proof.
  induction fuel as [| fuel IH]; intros [| l rest] rs H; cbn in H.
  1, 3: exists [], []; repeat split; constructor.
  - discriminate.
  - destruct (extend (length rest) l rest) as [[ring rest'] |] eqn:Hext;
      [| discriminate].
    destruct (close_rings fuel rest') as [rs' |] eqn:Hrs; [| discriminate].
    destruct (IH _ _ Hrs) as (cycles & flat & Hcyc & Hperm & Hor).
    assert (Hne : exists p e, head l = Some p /\ last l = Some e).
    { destruct l as [| a l'].
      - destruct (length rest); discriminate.
      - exists a. destruct (last (a :: l')) eqn:E; [eauto |].
        apply last_None in E. discriminate. }
    destruct Hne as (p & e & Hp & He).
    destruct (extend_spec (length rest) l rest ring rest' [l] l l p e
                Hext I eq_refl eq_refl Hp Hp He He) as (os' & used & Hu & Hr & Hc).
    exists (([l] ++ os') :: cycles), ((l :: used) ++ flat).
    split; [constructor; assumption |]. split.
    + rewrite Hr, Hperm. reflexivity.
    + cbn. constructor; [left; reflexivity |].
      apply Forall2_app; assumption.
Qed.

(** Rings are only emitted for lines that chain into closed cycles. *)
Lemma rings_chainable ls rs : rings ls = Some rs -> chainable ls.
Proof. apply close_rings_chainable. Qed.

(** ** The chaining succeeds exactly on the lines that close into cycles *)

Lemma pick_length e ls ext rest :
  pick e ls = Some (ext, rest) -> length ls = S (length rest).
Proof.
  intros H. destruct (pick_spec _ _ _ _ H) as (l & o & _ & _ & _ & Hperm).
  rewrite Hperm. reflexivity.
Qed.

Lemma touches_reverse l p : touches (reverse l) p = touches l p.
Proof. unfold touches. rewrite head_reverse, last_reverse. apply xorb_comm. Qed.

Lemma touches_oriented l o p : oriented l o -> touches o p = touches l p.
Proof. intros [-> | ->]; [reflexivity | apply touches_reverse]. Qed.

Lemma touches_ends o a b p :
  head o = Some a -> last o = Some b ->
  touches o p = xorb (bool_decide (a = p)) (bool_decide (b = p)).
Proof.
  intros Ha Hb. unfold touches. rewrite Ha, Hb.
  f_equal; apply bool_decide_ext; split; congruence.
Qed.

Lemma odd_at_app ls ks p : odd_at (ls ++ ks) p = xorb (odd_at ls p) (odd_at ks p).
Proof.
  induction ls as [| l ls IH]; cbn; [destruct (odd_at ks p); reflexivity |].
  rewrite IH, xorb_assoc. reflexivity.
Qed.

Lemma odd_at_permutation ls ks p : ls ≡ₚ ks -> odd_at ls p = odd_at ks p.
Proof.
  induction 1 as [| l ls ks _ IH | l k ls | ls ks ms _ IH1 _ IH2]; cbn.
  - reflexivity.
  - rewrite IH. reflexivity.
  - destruct (touches l p), (touches k p), (odd_at ls p); reflexivity.
  - congruence.
Qed.

Lemma odd_at_oriented ls os p : Forall2 oriented ls os -> odd_at os p = odd_at ls p.
Proof.
  induction 1 as [| l o ls os Ho _ IH]; cbn; [reflexivity |].
  rewrite IH, (touches_oriented l o p Ho). reflexivity.
Qed.

(** Along linked lines only the two outer ends count. *)
Lemma odd_at_linked os :
  forall first final a b p,
    linked os -> head os = Some first -> last os = Some final ->
    head first = Some a -> last final = Some b ->
    odd_at os p = xorb (bool_decide (a = p)) (bool_decide (b = p)).
Proof.
  induction os as [| o1 os IH]; intros first final a b p Hl Hf Hfin Ha Hb;
    [discriminate |].
  cbn in Hf. injection Hf as <-.
  destruct os as [| o2 os].
  - cbn in Hfin. injection Hfin as <-. cbn. rewrite xorb_false_r.
    apply touches_ends; assumption.
  - destruct Hl as ([m Hm] & Hlink & Hl).
    change (odd_at (o1 :: o2 :: os) p)
      with (xorb (touches o1 p) (odd_at (o2 :: os) p)).
    rewrite last_cons_cons in Hfin.
    assert (Hm' : head o2 = Some m) by congruence.
    rewrite (IH o2 final m b p Hl eq_refl Hfin Hm' Hb).
    rewrite (touches_ends o1 a m p Ha Hm).
    destruct (bool_decide (a = p)), (bool_decide (m = p)), (bool_decide (b = p));
      reflexivity.
Qed.

Lemma odd_at_closed_cycle os p : closed_cycle os -> odd_at os p = false.
Proof.
  intros (Hl & first & final & q & Hf & Hfin & Hq & Hq').
  rewrite (odd_at_linked os first final q q p Hl Hf Hfin Hq Hq').
  apply xorb_nilpotent.
Qed.

Lemma odd_at_concat cycles p :
  Forall closed_cycle cycles -> odd_at (concat cycles) p = false.
Proof.
  induction 1 as [| c cycles Hc _ IH]; cbn; [reflexivity |].
  rewrite odd_at_app, IH, (odd_at_closed_cycle c p Hc). reflexivity.
Qed.

(** Lines that close into cycles meet every point an even number of times,
    and none of them is empty. *)
Lemma chainable_even ls p : chainable ls -> odd_at ls p = false.
Proof.
  intros (cycles & flat & Hcyc & Hperm & Hor).
  rewrite (odd_at_permutation _ _ p Hperm), <- (odd_at_oriented _ _ p Hor).
  apply odd_at_concat, Hcyc.
Qed.

Lemma linked_nonempty os final :
  linked os -> last os = Some final -> is_Some (last final) ->
  Forall (fun o => o <> []) os.
Proof.
  revert final. induction os as [| o1 os IH]; intros final Hl Hfin Hs; [constructor |].
  destruct os as [| o2 os].
  - cbn in Hfin. injection Hfin as <-. constructor; [| constructor].
    intros ->. destruct Hs as [? Hs]. discriminate.
  - destruct Hl as ([m Hm] & _ & Hl). constructor.
    + intros ->. discriminate.
    + apply (IH final); assumption.
Qed.

Lemma chainable_nonempty ls : chainable ls -> Forall (fun l => l <> []) ls.
Proof.
  intros (cycles & flat & Hcyc & Hperm & Hor). rewrite Hperm.
  assert (Hos : Forall (fun o : list Z => o <> []) (concat cycles)).
  { apply Forall_concat. eapply Forall_impl; [exact Hcyc |].
    intros os (Hl & first & final & q & _ & Hfin & _ & Hq).
    apply (linked_nonempty os final); eauto. }
  clear Hcyc Hperm. induction Hor as [| l o ls' os Ho _ IH]; [constructor |].
  apply Forall_cons in Hos as [Hne Hos]. constructor; [| auto].
  intros ->. destruct Ho as [-> | ->]; [congruence |]. apply Hne. reflexivity.
Qed.

Lemma pick_succeeds e ls : odd_at ls e = true -> is_Some (pick e ls).
Proof.
  induction ls as [| l ls IH]; cbn; [discriminate |].
  intros H. case_bool_decide as Hh; [eauto |]. case_bool_decide as Hl; [eauto |].
  unfold touches in H. rewrite !bool_decide_eq_false_2 in H by assumption.
  destruct (IH H) as [[ext rest] ->]. eauto.
Qed.

(** With an even number of line ends at every point but the two ends of the
    chain, the chain closes, within [length ls] steps. *)
Lemma extend_succeeds fuel :
  forall chain ls p0 e,
    head chain = Some p0 -> last chain = Some e -> (length ls <= fuel)%nat ->
    (forall p, odd_at ls p = xorb (bool_decide (p0 = p)) (bool_decide (e = p))) ->
    exists ring rest,
      extend fuel chain ls = Some (ring, rest) /\
      (forall p, odd_at rest p = false) /\
      (length rest <= length ls)%nat /\
      (forall P : list Z -> Prop, Forall P ls -> Forall P rest).
Proof.
  induction fuel as [| fuel IH]; intros chain ls p0 e Hp0 He Hlen Hpar;
    cbn; unfold is_closed; rewrite Hp0, He; case_bool_decide as Hclosed.
  1, 3: exists chain, ls; subst e; split; [reflexivity |];
        split; [intros p; rewrite Hpar; apply xorb_nilpotent |]; auto.
  - exfalso. specialize (Hpar e).
    rewrite (bool_decide_eq_false_2 (p0 = e)), (bool_decide_eq_true_2 (e = e)) in Hpar
      by auto.
    destruct ls; [discriminate | cbn in Hlen; lia].
  - assert (Hodd : odd_at ls e = true).
    { rewrite Hpar, (bool_decide_eq_false_2 (p0 = e)), (bool_decide_eq_true_2 (e = e))
        by auto. reflexivity. }
    destruct (pick_succeeds e ls Hodd) as [[ext rest1] Hpick]. rewrite Hpick.
    destruct (pick_spec _ _ _ _ Hpick) as (l & o & Hor & Hho & -> & Hperm).
    assert (Hlo : is_Some (last o)).
    { destruct o; [discriminate |]. rewrite last_is_Some. discriminate. }
    destruct Hlo as [e' He'].
    destruct (IH (chain ++ tail o) rest1 p0 e') as (ring & rest & Hext & Heven & Hle & Hall).
    + apply head_app_nonempty, Hp0.
    + rewrite (last_app_tail chain o e); assumption.
    + apply pick_length in Hpick. lia.
    + intros p. specialize (Hpar p).
      rewrite (odd_at_permutation _ _ p Hperm) in Hpar. cbn in Hpar.
      rewrite <- (touches_oriented l o p Hor), (touches_ends o e e' p Hho He') in Hpar.
      destruct (bool_decide (e = p)), (bool_decide (e' = p)), (bool_decide (p0 = p)),
        (odd_at rest1 p); cbn in *; congruence.
    + exists ring, rest. split; [exact Hext |]. split; [exact Heven |].
      split; [apply pick_length in Hpick; lia |].
      intros P HP. apply Hall. rewrite Hperm in HP.
      apply Forall_cons in HP as [_ HP]. exact HP.
Qed.

Lemma close_rings_succeeds fuel :
  forall ls,
    (length ls <= fuel)%nat -> Forall (fun l => l <> []) ls ->
    (forall p, odd_at ls p = false) ->
    is_Some (close_rings fuel ls).
Proof.
  induction fuel as [| fuel IH]; intros [| l rest] Hlen Hne Heven; cbn;
    [eauto | cbn in Hlen; lia | eauto |].
  apply Forall_cons in Hne as [Hl Hne].
  assert (Hends : exists p0 e, head l = Some p0 /\ last l = Some e).
  { destruct l as [| a l']; [congruence |]. exists a.
    destruct (last (a :: l')) eqn:E; [eauto |]. apply last_None in E. discriminate. }
  destruct Hends as (p0 & e & Hp0 & He).
  destruct (extend_succeeds (length rest) l rest p0 e Hp0 He)
    as (ring & rest' & Hext & Heven' & Hle & Hall); [lia | |].
  - intros p. specialize (Heven p). cbn in Heven.
    rewrite (touches_ends l p0 e p Hp0 He) in Heven.
    destruct (bool_decide (p0 = p)), (bool_decide (e = p)), (odd_at rest p);
      cbn in *; congruence.
  - rewrite Hext. cbn in Hlen.
    destruct (IH rest') as [rs ->]; [lia | apply Hall, Hne | exact Heven' | eauto].
Qed.

(** Ring closure returns rings exactly for the lines that can be chained by
    shared endpoints into closed cycles. *)
Lemma rings_iff_chainable ls : is_Some (rings ls) <-> chainable ls.
Proof.
  split.
  - intros [rs H]. exact (rings_chainable ls rs H).
  - intros H. apply close_rings_succeeds;
      [lia | apply chainable_nonempty, H | intros p; apply chainable_even, H].
Qed.

Lemma assemble_relation_chainable ways rel outers inners :
  assemble_relation ways rel = Some (outers, inners) ->
  exists ls, lines_of ways outer (members rel) = Some ls /\ chainable ls.
Proof.
  unfold assemble_relation. intros H.
  destruct (lines_of ways outer (members rel)) as [ols |] eqn:Ho; [| discriminate].
  destruct (lines_of ways inner (members rel)); [| discriminate].
  destruct (rings ols) as [rs |] eqn:Hr; [| discriminate].
  exists ols. split; [reflexivity |]. exact (rings_chainable _ _ Hr).
Qed.

Lemma rings_cons l ls rs : rings (l :: ls) = Some rs -> exists r rs', rs = r :: rs'.
Proof.
  unfold rings. cbn. destruct (extend (length ls) l ls) as [[ring rest] |];
    [| discriminate].
  destruct (close_rings (length ls) rest); [| discriminate].
  intros H. injection H as <-. eauto.
Qed.

(** A relation whose lines are all in the table, with at least one outer
    line, and whose lines of either role close into cycles, is assembled. *)
Lemma assemble_relation_complete ways rel outer_lines inner_lines :
  lines_of ways outer (members rel) = Some outer_lines ->
  lines_of ways inner (members rel) = Some inner_lines ->
  outer_lines <> [] -> chainable outer_lines -> chainable inner_lines ->
  is_Some (assemble_relation ways rel).
Proof.
  intros Ho Hi Hne Hco Hci. unfold assemble_relation. rewrite Ho, Hi.
  apply rings_iff_chainable in Hco as [outers Houters].
  apply rings_iff_chainable in Hci as [inners Hinners].
  rewrite Houters, Hinners.
  destruct outer_lines as [| l ls]; [congruence |].
  destruct (rings_cons l ls outers Houters) as (r & rs' & ->). eauto.
Qed.

Lemma assemble_from_incomplete ways levels rels :
  forall next rel,
    rel ∈ rels -> level rel ∈ levels -> assemble_relation ways rel = None ->
    relation_id rel ∈ incomplete (assemble_from next ways levels rels).
Proof.
  induction rels as [| r rels IH]; intros next rel Hin Hlev Hnone;
    [inversion Hin |].
  apply elem_of_cons in Hin as [-> | Hin]; cbn.
  - rewrite bool_decide_eq_true_2 by exact Hlev. rewrite Hnone. cbn. set_solver.
  - case_bool_decide; [| eauto].
    destruct (assemble_relation ways r) as [[? ?] |]; cbn; [eauto |].
    apply elem_of_union_r. eauto.
Qed.

Lemma assemble_from_assembled ways levels rels :
  forall next a,
    a ∈ assembled (assemble_from next ways levels rels) ->
    exists rel, rel ∈ rels /\ level rel ∈ levels /\
                area_relation a = relation_id rel /\
                assemble_relation ways rel = Some (outer_rings a, inner_rings a).
Proof.
  induction rels as [| r rels IH]; intros next a Hin; cbn in Hin;
    [inversion Hin |].
  case_bool_decide as Hlev.
  - destruct (assemble_relation ways r) as [[outers inners] |] eqn:Hr; cbn in Hin.
    + apply elem_of_cons in Hin as [-> | Hin].
      * exists r. cbn. repeat split; [left | exact Hlev | exact Hr].
      * destruct (IH _ _ Hin) as (rel & ? & ? & ? & ?). exists rel.
        repeat split; [right | ..]; assumption.
    + destruct (IH _ _ Hin) as (rel & ? & ? & ? & ?). exists rel.
      repeat split; [right | ..]; assumption.
  - destruct (IH _ _ Hin) as (rel & ? & ? & ? & ?). exists rel.
    repeat split; [right | ..]; assumption.
Qed.

(** A relation whose chains close yields an area, whatever happens to the
    relations around it. *)
Lemma assemble_from_complete ways levels rels :
  forall next rel outers inners,
    rel ∈ rels -> level rel ∈ levels ->
    assemble_relation ways rel = Some (outers, inners) ->
    exists a, a ∈ assembled (assemble_from next ways levels rels) /\
              area_relation a = relation_id rel /\
              outer_rings a = outers /\ inner_rings a = inners.
Proof.
  induction rels as [| r rels IH]; intros next rel outers inners Hin Hlev Hsome;
    [inversion Hin |].
  apply elem_of_cons in Hin as [-> | Hin]; cbn.
  - rewrite bool_decide_eq_true_2 by exact Hlev. rewrite Hsome. cbn.
    eexists. split; [left |]. cbn. auto.
  - case_bool_decide; [| eauto].
    destruct (assemble_relation ways r) as [[? ?] |]; cbn; [| eauto].
    destruct (IH (next + 1) rel outers inners Hin Hlev Hsome) as (a & ? & ?).
    exists a. split; [right |]; assumption.
Qed.

Lemma relation_id_unique (rels : list Relation) r r' :
  NoDup (relation_id <$> rels) -> r ∈ rels -> r' ∈ rels ->
  relation_id r = relation_id r' -> r = r'.
Proof.
  induction rels as [| x rels IH]; intros Hnd Hr Hr' Hid; [inversion Hr |].
  rewrite fmap_cons in Hnd. apply NoDup_cons in Hnd as [Hx Hnd].
  apply elem_of_cons in Hr as [-> | Hr]; apply elem_of_cons in Hr' as [-> | Hr'].
  - reflexivity.
  - exfalso. apply Hx. rewrite Hid. apply list_elem_of_fmap_2. assumption.
  - exfalso. apply Hx. rewrite <- Hid. apply list_elem_of_fmap_2. assumption.
  - auto.
Qed.

(** C3: a selected relation whose outer-role lines cannot be chained by
    shared endpoints into closed cycles is recorded in the incomplete set,
    and no area is produced for it; the assembly goes on all the same, every
    selected relation whose lines do close into cycles yielding its area. *)
Theorem unclosed_relation_is_incomplete nodes ways rels levels rel :
  NoDup (relation_id <$> rels) ->
  rel ∈ rels -> level rel ∈ levels ->
  (forall ls, lines_of ways outer (members rel) = Some ls -> ~ chainable ls) ->
  relation_id rel ∈ incomplete (assemble nodes ways rels levels) /\
  (forall a, a ∈ assemble_areas nodes ways rels levels ->
             area_relation a <> relation_id rel) /\
  (forall rel' outer_lines inner_lines,
     rel' ∈ rels -> level rel' ∈ levels ->
     lines_of ways outer (members rel') = Some outer_lines ->
     lines_of ways inner (members rel') = Some inner_lines ->
     outer_lines <> [] -> chainable outer_lines -> chainable inner_lines ->
     exists a, a ∈ assemble_areas nodes ways rels levels /\
               area_relation a = relation_id rel').
Proof.
  intros Hnd Hin Hlev Hopen.
  assert (Hnone : assemble_relation ways rel = None).
  { destruct (assemble_relation ways rel) as [[outers inners] |] eqn:Hr;
      [| reflexivity].
    destruct (assemble_relation_chainable _ _ _ _ Hr) as (ls & Hls & Hch).
    destruct (Hopen ls Hls Hch). }
  split; [| split].
  - apply assemble_from_incomplete; assumption.
  - intros a Ha Hid.
    destruct (assemble_from_assembled _ _ _ _ _ Ha) as (rel' & Hin' & _ & Hid' & Hsome).
    assert (rel' = rel) as ->.
    { apply (relation_id_unique rels); [assumption .. | congruence]. }
    congruence.
  - intros rel' outer_lines inner_lines Hin' Hlev' Ho Hi Hne Hco Hci.
    destruct (assemble_relation_complete ways rel' _ _ Ho Hi Hne Hco Hci)
      as [[outers inners] Hsome].
    destruct (assemble_from_complete ways levels rels 0 rel' outers inners
                Hin' Hlev' Hsome) as (a & Ha & Hid & _).
    exists a. split; assumption.
Qed.

(** A single line whose two ends differ closes into no cycle. *)
Lemma open_line_not_chainable (l : list Z) p e :
  head l = Some p -> last l = Some e -> p <> e -> ~ chainable [l].
Proof.
  intros Hp He Hne (cycles & flat & Hcyc & Hperm & Hor).
  apply Permutation_singleton_l in Hperm as <-.
  inversion Hor as [| l' o ls' os Hlo Hrest Hl Hconcat]; subst.
  inversion Hrest; subst.
  destruct cycles as [| c cycles]; [discriminate |].
  apply Forall_cons in Hcyc as [(_ & first & final & q & Hf & Hfin & Hq & Hq') _].
  destruct c as [| o1 c]; [discriminate |].
  cbn in Hconcat. injection Hconcat as -> Hc.
  symmetry in Hc. apply app_eq_nil in Hc as [-> _].
  cbn in Hf, Hfin. injection Hf as <-. injection Hfin as <-.
  destruct Hlo as [-> | ->].
  - congruence.
  - rewrite head_reverse in Hq. rewrite last_reverse in Hq'. congruence.
Qed.

Lemma unclosed_relation_is_incomplete_witness :
  NoDup (relation_id <$> relations example.dataset) /\
  example.relation_open ∈ relations example.dataset /\
  level example.relation_open ∈ [4] /\
  (forall ls, lines_of (ways example.dataset) outer (members example.relation_open)
                = Some ls -> ~ chainable ls) /\
  12 ∈ incomplete (assemble (nodes example.dataset) (ways example.dataset)
                     (relations example.dataset) [4]) /\
  (forall a, a ∈ assemble_areas (nodes example.dataset) (ways example.dataset)
                   (relations example.dataset) [4] ->
             area_relation a <> 12).
Proof.
  assert (Hnd : NoDup (relation_id <$> relations example.dataset)).
  { apply (bool_decide_unpack _). vm_compute. reflexivity. }
  assert (Hin : example.relation_open ∈ relations example.dataset).
  { cbn. right. right. left. }
  assert (Hlev : level example.relation_open ∈ [4]) by left.
  assert (Hopen : forall ls,
             lines_of (ways example.dataset) outer (members example.relation_open)
               = Some ls -> ~ chainable ls).
  { intros ls Hls. vm_compute in Hls. injection Hls as <-.
    apply (open_line_not_chainable [1; 3] 1 3); [reflexivity | reflexivity | lia]. }
  split; [exact Hnd |]. split; [exact Hin |]. split; [exact Hlev |].
  split; [exact Hopen |].
  destruct (unclosed_relation_is_incomplete (nodes example.dataset)
              (ways example.dataset) (relations example.dataset) [4]
              example.relation_open Hnd Hin Hlev Hopen) as (Hinc & Hno & _).
  split; [exact Hinc | exact Hno].
Defined.

End Assembler.

(* ===================================================================== *)
(** * Facts about the neighbor inspector                                  *)
(* ===================================================================== *)

Section Inspector.

Import inspector.

Lemma areas_at_insert idx k s k' :
  areas_at (<[k := s]> idx) k' = if decide (k = k') then s else areas_at idx k'.
Proof.
  unfold areas_at. rewrite lookup_insert. destruct (decide (k = k')); reflexivity.
Qed.

Lemma areas_at_add_segments i ks :
  forall idx j k,
    j ∈ areas_at (foldl (fun m k => <[k := {[ i ]} ∪ areas_at m k]> m) idx ks) k
    <-> j ∈ areas_at idx k \/ (j = i /\ k ∈ ks).
Proof.
  induction ks as [| k0 ks IH]; intros idx j k; cbn.
  - split; [auto | intros [H | [_ H]]; [exact H | inversion H]].
  - rewrite IH, areas_at_insert, elem_of_cons.
    destruct (decide (k0 = k)) as [-> | Hne].
    + rewrite elem_of_union, elem_of_singleton. tauto.
    + split; [intros [H | [H1 H2]]; auto | intros [H | [H1 [H2 | H2]]]; auto].
      congruence.
Qed.

Lemma areas_at_add_area idx a j k :
  j ∈ areas_at (add_area idx a) k
  <-> j ∈ areas_at idx k \/ (j = area_id a /\ k ∈ area_segments a).
Proof. unfold add_area. exact (areas_at_add_segments _ _ idx j k). Qed.

Lemma areas_at_foldl_add_area areas :
  forall idx j k,
    j ∈ areas_at (foldl add_area idx areas) k
    <-> j ∈ areas_at idx k \/
        exists a, a ∈ areas /\ area_id a = j /\ k ∈ area_segments a.
Proof.
  induction areas as [| a areas IH]; intros idx j k; cbn.
  - split; [auto | intros [H | (a & H & _)]; [exact H | inversion H]].
  - rewrite IH, areas_at_add_area. split.
    + intros [[H | [-> H]] | (b & Hb & Hid & Hk)]; [auto | right | right].
      * exists a. split; [left | auto].
      * exists b. split; [right; exact Hb | auto].
    + intros [H | (b & Hb & Hid & Hk)]; [auto |].
      apply elem_of_cons in Hb as [-> | Hb]; [left; right; auto |].
      right. exists b. auto.
Qed.

(** The index holds, for a key, the ids of the areas with that segment. *)
Lemma areas_at_build_index areas j k :
  j ∈ areas_at (build_index areas) k
  <-> exists a, a ∈ areas /\ area_id a = j /\ k ∈ area_segments a.
Proof.
  unfold build_index. rewrite areas_at_foldl_add_area.
  unfold areas_at at 1. rewrite lookup_empty. cbn.
  split; [intros [H | H]; [| exact H] | auto].
  apply not_elem_of_empty in H. destruct H.
Qed.

Lemma elem_of_query idx a j :
  j ∈ query idx a
  <-> j <> area_id a /\ exists k, k ∈ area_segments a /\ j ∈ areas_at idx k.
Proof.
  unfold query. rewrite elem_of_difference, elem_of_union_list, elem_of_singleton.
  split.
  - intros [(s & Hs & Hj) Hne]. split; [exact Hne |].
    apply list_elem_of_fmap in Hs as (k & -> & Hk). eauto.
  - intros [Hne (k & Hk & Hj)]. split; [| exact Hne].
    exists (areas_at idx k). split; [| exact Hj].
    apply list_elem_of_fmap. eauto.
Qed.

Lemma neighbors_of_insert g i s i' :
  neighbors_of (<[i := s]> g) i' = if decide (i = i') then s else neighbors_of g i'.
Proof.
  unfold neighbors_of. rewrite lookup_insert. destruct (decide (i = i')); reflexivity.
Qed.

Lemma neighbors_of_foldl idx areas :
  forall g i j,
    j ∈ neighbors_of (foldl (add_neighbors idx) g areas) i
    <-> j ∈ neighbors_of g i \/
        exists a, a ∈ areas /\ area_id a = i /\ j ∈ query idx a.
Proof.
  induction areas as [| a areas IH]; intros g i j; cbn.
  - split; [auto | intros [H | (a & H & _)]; [exact H | inversion H]].
  - rewrite IH. unfold add_neighbors. rewrite neighbors_of_insert.
    case_decide as Heq.
    + subst i. rewrite elem_of_union. split.
      * intros [[H | H] | (b & Hb & Hid & Hq)]; [right | auto | right].
        -- exists a. split; [left | auto].
        -- exists b. split; [right; exact Hb | auto].
      * intros [H | (b & Hb & Hid & Hq)]; [auto |].
        apply elem_of_cons in Hb as [-> | Hb]; [auto |].
        right. exists b. auto.
    + split.
      * intros [H | (b & Hb & Hid & Hq)]; [auto | right].
        exists b. split; [right; exact Hb | auto].
      * intros [H | (b & Hb & Hid & Hq)]; [auto |].
        apply elem_of_cons in Hb as [-> | Hb]; [contradiction |].
        right. exists b. auto.
Qed.

Lemma lookup_foldl_add_neighbors idx areas :
  forall g i,
    foldl (add_neighbors idx) g areas !! i = None
    <-> g !! i = None /\ forall a, a ∈ areas -> area_id a <> i.
Proof.
  induction areas as [| a areas IH]; intros g i; cbn.
  - split; [intros H; split; [exact H | intros a Ha; inversion Ha] | tauto].
  - rewrite IH. unfold add_neighbors. rewrite lookup_insert_None. split.
    + intros [[Hg Hne] Hall]. split; [exact Hg |].
      intros b Hb. apply elem_of_cons in Hb as [-> | Hb]; auto.
    + intros [Hg Hall]. split; [split; [exact Hg | apply Hall; left] |].
      intros b Hb. apply Hall. right. exact Hb.
Qed.

(** Two ids are adjacent iff they differ and areas with these ids share a
    segment key. *)
Lemma elem_of_adjacency areas i j :
  j ∈ neighbors_of (adjacency areas) i
  <-> i <> j /\
      exists a b k, a ∈ areas /\ b ∈ areas /\ area_id a = i /\ area_id b = j /\
                    k ∈ area_segments a /\ k ∈ area_segments b.
Proof.
  unfold adjacency. rewrite neighbors_of_foldl.
  unfold neighbors_of at 1. rewrite lookup_empty. cbn. split.
  - intros [H | (a & Ha & Hid & Hq)]; [apply not_elem_of_empty in H; destruct H |].
    apply elem_of_query in Hq as [Hne (k & Hk & Hj)].
    apply areas_at_build_index in Hj as (b & Hb & Hidb & Hkb).
    split; [congruence |]. exists a, b, k. auto 10.
  - intros [Hne (a & b & k & Ha & Hb & Hida & Hidb & Hka & Hkb)].
    right. exists a. split; [exact Ha |]. split; [exact Hida |].
    apply elem_of_query. split; [congruence |]. exists k. split; [exact Hka |].
    apply areas_at_build_index. eauto.
Qed.

Lemma adjacency_permutation areas areas' :
  areas ≡ₚ areas' -> adjacency areas' = adjacency areas.
Proof.
  intros Hperm. apply map_eq. intros i.
  assert (Hmem : forall j, j ∈ neighbors_of (adjacency areas') i
                           <-> j ∈ neighbors_of (adjacency areas) i).
  { intros j. rewrite !elem_of_adjacency.
    split; intros [Hne (a & b & k & Ha & Hb & H)]; (split; [exact Hne |]);
      exists a, b, k; [rewrite Hperm | rewrite <- Hperm]; auto. }
  assert (Hnone : adjacency areas' !! i = None <-> adjacency areas !! i = None).
  { unfold adjacency. rewrite !lookup_foldl_add_neighbors.
    split; intros [Hg Hall]; (split; [exact Hg |]); intros a Ha; apply Hall;
      [rewrite <- Hperm | rewrite Hperm]; exact Ha. }
  unfold neighbors_of in Hmem.
  destruct (adjacency areas' !! i) as [s' |] eqn:E', (adjacency areas !! i) as [s |] eqn:E.
  - f_equal. apply set_eq. exact Hmem.
  - destruct Hnone as [_ H]. discriminate (H eq_refl).
  - destruct Hnone as [H _]. discriminate (H eq_refl).
  - reflexivity.
Qed.

(** C6: the adjacency graph of the inspector is symmetric, and it is the same
    graph in whatever order the areas are inserted. *)
Theorem adjacency_symmetric_and_order_independent (areas : list Area) :
  (forall a b : Z,
     b ∈ neighbors_of (fst (get_relations areas)) a
     <-> a ∈ neighbors_of (fst (get_relations areas)) b) /\
  (forall areas' : list Area,
     areas ≡ₚ areas' -> fst (get_relations areas') = fst (get_relations areas)).
Proof.
  split.
  - intros a b. cbn. rewrite !elem_of_adjacency.
    split; intros [Hne (x & y & k & Hx & Hy & Hix & Hiy & Hkx & Hky)];
      (split; [congruence |]); exists y, x, k; auto 10.
  - intros areas' Hperm. cbn. apply adjacency_permutation, Hperm.
Qed.

End Inspector.

(* ===================================================================== *)
(** * Facts about the area filter                                         *)
(* ===================================================================== *)

Section Filter.

Import filter.

(** ** Signs of binary64 sums and quotients *)










(** ** The filter *)













End Filter.

(* ===================================================================== *)
(** * Further facts about the driver                                      *)
(* ===================================================================== *)

Section Stages.

Import create pipeline.

Lemma projection_not_in_later (later : list Stage) st :
  (forall st', st' ∈ later -> exists p, st' = ApplyProjection p) ->
  (forall p, st <> ApplyProjection p) -> st ∉ later.
Proof. intros Hl Hst Hin. destruct (Hl st Hin) as [p ->]. exact (Hst p eq_refl). Qed.

Lemma elem_of_stages K o st :
  accepted K o -> (forall p, st <> ApplyProjection p) ->
  (st ∈ stages (snd (exec K o)) <-> st ∈ stages_before_scaling o).
Proof.
  intros Hacc Hst.
  destruct (exec_accepted_state K o Hacc) as (_ & _ & _ & later & -> & Hl).
  rewrite elem_of_app. split; [| auto].
  intros [H | H]; [| exact H].
  destruct (projection_not_in_later later st Hl Hst H).
Qed.

(** X1: in a run the validators accept, the compressor is invoked exactly
    when the compression tolerance is above 0, the filter exactly when the
    filter tolerance is above 0, and the bonus assembler exactly when a bonus
    level is given; a tolerance of 0 or NaN therefore skips its stage. *)
Theorem optional_stages_run_iff_enabled K o :
  accepted K o ->
  (CompressWays ∈ stages (snd (exec K o))
   <-> (0 <? compression_epsilon o)%float = true) /\
  (FilterAreas ∈ stages (snd (exec K o))
   <-> (0 <? filter_epsilon o)%float = true) /\
  (AssembleBonuses ∈ stages (snd (exec K o)) <-> bonus_levels o <> []) /\
  (compression_epsilon o = 0%float \/ compression_epsilon o = nan ->
   CompressWays ∉ stages (snd (exec K o))) /\
  (filter_epsilon o = 0%float \/ filter_epsilon o = nan ->
   FilterAreas ∉ stages (snd (exec K o))).
Proof.
  intros Hacc.
  assert (Hc : CompressWays ∈ stages (snd (exec K o))
               <-> (0 <? compression_epsilon o)%float = true).
  { rewrite (elem_of_stages K o _ Hacc) by discriminate.
    unfold stages_before_scaling.
    destruct (bonus_levels o); destruct (0 <? filter_epsilon o)%float;
      destruct (0 <? compression_epsilon o)%float; cbn;
      rewrite ?elem_of_cons, elem_of_nil; split; intros H;
      try reflexivity; try discriminate; try tauto;
      repeat (destruct H as [H | H]; [discriminate |]); destruct H. }
  assert (Hf : FilterAreas ∈ stages (snd (exec K o))
               <-> (0 <? filter_epsilon o)%float = true).
  { rewrite (elem_of_stages K o _ Hacc) by discriminate.
    unfold stages_before_scaling.
    destruct (bonus_levels o); destruct (0 <? filter_epsilon o)%float;
      destruct (0 <? compression_epsilon o)%float; cbn;
      rewrite ?elem_of_cons, elem_of_nil; split; intros H;
      try reflexivity; try discriminate; try tauto;
      repeat (destruct H as [H | H]; [discriminate |]); destruct H. }
  split; [exact Hc |]. split; [exact Hf |]. split; [| split].
  - rewrite (elem_of_stages K o _ Hacc) by discriminate.
    unfold stages_before_scaling.
    destruct (bonus_levels o); destruct (0 <? filter_epsilon o)%float;
      destruct (0 <? compression_epsilon o)%float; cbn;
      rewrite ?elem_of_cons, elem_of_nil; split; intros H;
      try discriminate; try tauto; try congruence;
      repeat (destruct H as [H | H]; [discriminate |]); destruct H.
  - intros He. rewrite Hc. destruct He as [-> | ->]; discriminate.
  - intros He. rewrite Hf. destruct He as [-> | ->]; discriminate.
Qed.

Lemma optional_stages_run_iff_enabled_witness :
  accepted example.K example.filtering /\
  FilterAreas ∈ stages (snd (exec example.K example.filtering)) /\
  CompressWays ∉ stages (snd (exec example.K example.filtering)).
Proof.
  assert (Hacc : accepted example.K example.filtering).
  { unfold accepted. vm_compute. repeat split. }
  destruct (optional_stages_run_iff_enabled example.K example.filtering Hacc)
    as (_ & Hf & _ & Hc & _).
  split; [exact Hacc |]. split.
  - apply Hf. reflexivity.
  - apply Hc. left. reflexivity.
Defined.

End Stages.

Section Order.

Import create pipeline report.

Ltac solve_sublist :=
  repeat first [ apply sublist_nil_l | apply sublist_skip | apply sublist_cons ].

(** X2: the stages of an accepted run are invoked in the order of the program
    text; reading, territory assembly, inspection and the two spherical
    projections are always among them; and when the run returns, the last
    stage is the interval projection onto exactly the dimensions the run
    reports. *)
Theorem stages_follow_program_order K o :
  accepted K o ->
  reverse (stages (snd (exec K o)))
    `sublist_of` program_order K (out_width (snd (exec K o)))
                   (out_height (snd (exec K o))) /\
  [ReadInfo; ReadData; AssembleTerritories; InspectNeighbors;
   ApplyProjection RadianProjection; ApplyProjection MercatorProjection]
    `sublist_of` reverse (stages (snd (exec K o))) /\
  (fst (exec K o) = inr tt ->
   head (stages (snd (exec K o)))
   = Some (ApplyProjection
             (IntervalProjection (0, 1)%float (0, 1)%float
                (0%float, double_of_Z (out_width (snd (exec K o))))
                (0%float, double_of_Z (out_height (snd (exec K o))))))).
Proof.
  intros Hacc. rewrite (exec_accepted K o Hacc).
  unfold program_order, scaled, before_scaling, stages_before_scaling.
  destruct (auto_dimensions _ _ _) as [[w h] |]; cbn [snd fst stages out_width out_height];
    destruct (bonus_levels o); destruct (0 <? filter_epsilon o)%float;
    destruct (0 <? compression_epsilon o)%float; cbn;
    (split; [solve_sublist | split; [solve_sublist |]]);
    first [discriminate | reflexivity].
Qed.

Lemma stages_follow_program_order_witness :
  accepted example.K example.filtering /\
  reverse (stages (snd (exec example.K example.filtering)))
    `sublist_of` program_order example.K 1000 500.
Proof.
  assert (Hacc : accepted example.K example.filtering).
  { unfold accepted. vm_compute. repeat split. }
  split; [exact Hacc |].
  exact (proj1 (stages_follow_program_order example.K example.filtering Hacc)).
Defined.

(** X3: a dimension that is given is never changed: a run with both
    dimensions nonzero returns with exactly these dimensions, a nonzero
    width survives every run, and with width 0 the height is left alone,
    also when both are 0 and whether or not the conversion is defined. *)
Theorem given_dimensions_are_kept K o :
  accepted K o ->
  (width o <> 0 -> out_width (snd (exec K o)) = width o) /\
  (width o = 0 -> out_height (snd (exec K o)) = height o) /\
  (width o <> 0 -> height o <> 0 ->
   fst (exec K o) = inr tt /\ out_height (snd (exec K o)) = height o).
Proof.
  intros Hacc. rewrite (exec_accepted K o Hacc). unfold auto_dimensions.
  split; [| split].
  - intros Hw. apply Z.eqb_neq in Hw. rewrite Hw.
    destruct (_ || _); [| reflexivity].
    destruct (size_t_of_double _); reflexivity.
  - intros Hw. rewrite Hw. cbn.
    destruct (size_t_of_double _); reflexivity.
  - intros Hw Hh. apply Z.eqb_neq in Hw, Hh. rewrite Hw, Hh. cbn. auto.
Qed.

Lemma given_dimensions_are_kept_witness :
  accepted example.K example.filtering /\
  fst (exec example.K example.filtering) = inr tt /\
  out_width (snd (exec example.K example.filtering)) = 1000 /\
  out_height (snd (exec example.K example.filtering)) = 500.
Proof.
  assert (Hacc : accepted example.K example.filtering).
  { unfold accepted. vm_compute. repeat split. }
  destruct (given_dimensions_are_kept example.K example.filtering Hacc)
    as (Hw & _ & Hboth).
  split; [exact Hacc |].
  destruct Hboth as [Hret Hh]; [discriminate | discriminate |].
  split; [exact Hret |]. split; [apply Hw; discriminate | exact Hh].
Defined.

(** X4: in every run that returns, also one with both dimensions given, the
    final point table is the reader's (compressed) table taken through the
    radian, Mercator, unit and interval projections in this order, the unit
    projection normalizing by the default-constructed rectangle and the
    interval projection scaling to the reported dimensions; the bounds of the
    points enter nowhere. *)
Theorem returning_run_composes_projections K o :
  accepted K o ->
  fst (exec K o) = inr tt ->
  nodes (data (snd (exec K o))) =
    apply_projection K
      (IntervalProjection (0, 1)%float (0, 1)%float
         (0%float, double_of_Z (out_width (snd (exec K o))))
         (0%float, double_of_Z (out_height (snd (exec K o)))))
      (apply_projection K
         (UnitProjection
            (geometry.x (geometry.min (default_rectangle K)),
             geometry.x (geometry.max (default_rectangle K)))
            (geometry.y (geometry.min (default_rectangle K)),
             geometry.y (geometry.max (default_rectangle K))))
         (apply_projection K MercatorProjection
            (apply_projection K RadianProjection (nodes (compressed K o))))).
Proof.
  intros Hacc. rewrite (exec_accepted K o Hacc).
  destruct (auto_dimensions _ _ _) as [[w h] |]; cbn; [| discriminate].
  intros _. reflexivity.
Qed.

Lemma returning_run_composes_projections_witness :
  accepted example.K example.filtering /\
  fst (exec example.K example.filtering) = inr tt /\
  nodes (data (snd (exec example.K example.filtering))) !! 3
  = Some {| geometry.x := infinity; geometry.y := nan |}.
Proof.
  assert (Hacc : accepted example.K example.filtering).
  { unfold accepted. vm_compute. repeat split. }
  assert (Hret : fst (exec example.K example.filtering) = inr tt).
  { vm_compute. reflexivity. }
  split; [exact Hacc |]. split; [exact Hret |].
  rewrite (returning_run_composes_projections example.K example.filtering Hacc Hret).
  vm_compute. reflexivity.
Defined.

(** X5: no stage is handed [data.incomplete_relations]: after every accepted
    run the set is the one the reader returned, whatever the assemblers
    found. *)
Theorem incomplete_relations_are_the_readers K o :
  accepted K o ->
  incomplete_relations (data (snd (exec K o)))
  = incomplete_relations
      (get_data K (input o) (territory_level o) (bonus_levels o)).
Proof.
  intros Hacc. rewrite (exec_accepted K o Hacc).
  destruct (auto_dimensions _ _ _) as [[w h] |]; cbn;
    unfold compressed, read; destruct (0 <? compression_epsilon o)%float;
    reflexivity.
Qed.

Lemma incomplete_relations_are_the_readers_witness :
  accepted example.K example.filtering /\
  incomplete_relations (data (snd (exec example.K example.filtering))) = ∅ /\
  12 ∈ assembler.incomplete
         (assembler.assemble (nodes example.dataset) (ways example.dataset)
            (relations example.dataset) [4]).
Proof.
  assert (Hacc : accepted example.K example.filtering).
  { unfold accepted. vm_compute. repeat split. }
  split; [exact Hacc |]. split.
  - rewrite (incomplete_relations_are_the_readers example.K example.filtering Hacc).
    reflexivity.
  - apply (bool_decide_unpack _). vm_compute. reflexivity.
Defined.

(** X6: when neither the filter nor the bonus assembler runs, the adjacency
    graph and the component map a run is left with are those of its final
    area set. *)
Theorem relations_current_without_filter_and_bonus K o :
  accepted K o ->
  (0 <? filter_epsilon o)%float = false ->
  bonus_levels o = [] ->
  (neighbors (snd (exec K o)), components (snd (exec K o)))
  = get_relations K (areas (data (snd (exec K o)))).
Proof.
  intros Hacc Hf Hb.
  destruct (exec_accepted_state K o Hacc) as (-> & -> & -> & _).
  unfold final_areas, filtered, inspected. rewrite Hb, Hf.
  destruct (get_relations K (territories K o)); reflexivity.
Qed.

Lemma relations_current_without_filter_and_bonus_witness :
  accepted example.K example.auto_width /\
  (0 <? filter_epsilon example.auto_width)%float = false /\
  bonus_levels example.auto_width = [] /\
  (neighbors (snd (exec example.K example.auto_width)),
   components (snd (exec example.K example.auto_width)))
  = get_relations example.K (areas (data (snd (exec example.K example.auto_width)))).
Proof.
  assert (Hacc : accepted example.K example.auto_width).
  { unfold accepted. vm_compute. repeat split. }
  split; [exact Hacc |]. split; [reflexivity |]. split; [reflexivity |].
  exact (relations_current_without_filter_and_bonus example.K example.auto_width
           Hacc eq_refl eq_refl).
Defined.

End Order.

Section Defaults.

Import create pipeline report.

(** X7: a command line that gives only the input path and the territory
    level runs the plain pipeline: no compression, no filter, no bonus step;
    the areas are those the direct assembler builds from the reader's tables
    for that one level; the width stays at its default of 1000, and the
    height is the one computed from it. *)
Theorem default_options_run_plain_pipeline K path t :
  accepted K (options.given path t) ->
  reverse (stages (snd (exec K (options.given path t))))
  = [ReadInfo; ReadData; AssembleTerritories; InspectNeighbors;
     ApplyProjection RadianProjection; ApplyProjection MercatorProjection]
    ++ match fst (exec K (options.given path t)) with
       | inr _ =>
           [ApplyProjection (unit_step K);
            ApplyProjection
              (interval_step 1000 (out_height (snd (exec K (options.given path t)))))]
       | inl _ => []
       end /\
  areas (data (snd (exec K (options.given path t))))
  = simple_assemble_areas K (nodes (get_data K path t []))
      (ways (get_data K path t [])) (relations (get_data K path t [])) [t] /\
  out_width (snd (exec K (options.given path t))) = 1000 /\
  (fst (exec K (options.given path t)) = inr tt ->
   size_t_of_double
     (geometry.height (default_rectangle K) / geometry.width (default_rectangle K)
      * double_of_Z 1000)%float
   = Some (out_height (snd (exec K (options.given path t))))).
Proof.
  intros Hacc. rewrite (exec_accepted K _ Hacc).
  unfold auto_dimensions. cbn [width height options.given options.defaults].
  cbn [Z.eqb orb].
  destruct (size_t_of_double _) as [h |]; cbn; repeat split; discriminate.
Qed.

Lemma default_options_run_plain_pipeline_witness :
  accepted example.K (options.given "map.osm" 4) /\
  areas (data (snd (exec example.K (options.given "map.osm" 4))))
  = [example.area_a; example.area_b] /\
  out_width (snd (exec example.K (options.given "map.osm" 4))) = 1000.
Proof.
  assert (Hacc : accepted example.K (options.given "map.osm" 4)).
  { unfold accepted. vm_compute. repeat split. }
  destruct (default_options_run_plain_pipeline example.K "map.osm" 4 Hacc)
    as (_ & Hareas & Hw & _).
  split; [exact Hacc |]. split; [| exact Hw].
  rewrite Hareas. vm_compute. reflexivity.
Defined.

(** X9: the number of bonus areas the driver prints is the unsigned
    difference of the two sizes: the number of areas added when the bonus
    assembler left the set at least as large as it found it, and a value
    that wraps around [2^64] when it left it smaller. *)
Theorem bonus_area_count_is_unsigned_difference K o :
  accepted K o ->
  bonus_levels o <> [] ->
  size (filtered K o) < 2 ^ 64 ->
  size (areas (data (snd (exec K o)))) < 2 ^ 64 ->
  exists n,
    bonus_areas K o = Some n /\
    (size (filtered K o) <= size (areas (data (snd (exec K o)))) ->
     n = size (areas (data (snd (exec K o)))) - size (filtered K o)) /\
    (size (areas (data (snd (exec K o)))) < size (filtered K o) ->
     n = 2 ^ 64 - (size (filtered K o) - size (areas (data (snd (exec K o)))))).
Proof.
  intros Hacc Hb.
  destruct (exec_accepted_state K o Hacc) as (-> & _).
  intros Hbefore Hafter. unfold bonus_areas.
  destruct (bonus_levels o) as [| b bs] eqn:Hbl; [congruence |].
  eexists. split; [reflexivity |]. unfold size_t_sub.
  assert (H0 : 0 <= size (filtered K o)) by (unfold size; lia).
  assert (H1 : 0 <= size (final_areas K o)) by (unfold size; lia).
  split; intros Hle.
  - apply Z.mod_small. lia.
  - rewrite <- (Z.mod_add _ 1) by lia. rewrite Z.mod_small; lia.
Qed.

Lemma bonus_area_count_is_unsigned_difference_witness :
  accepted example.K scenario.with_bonus /\
  bonus_levels scenario.with_bonus <> [] /\
  bonus_areas example.K scenario.with_bonus = Some 0.
Proof.
  assert (Hacc : accepted example.K scenario.with_bonus).
  { unfold accepted. vm_compute. repeat split. }
  assert (Hb : bonus_levels scenario.with_bonus <> []) by discriminate.
  split; [exact Hacc |]. split; [exact Hb |].
  destruct (bonus_area_count_is_unsigned_difference example.K scenario.with_bonus
              Hacc Hb) as (n & Hn & Hadd & _).
  - vm_compute. reflexivity.
  - vm_compute. reflexivity.
  - rewrite Hn. f_equal. rewrite Hadd; vm_compute; [reflexivity | discriminate].
Defined.

End Defaults.

Section ObjectIdWidth.

Import memory.

(** X8: whatever the data model, [object_id_type] holds every id of the
    32-bit range unchanged; it holds all ids from [2^31] up to [2^63 - 1]
    exactly under LP64; and where [long] has 32 bits, an id from [2^31] up to
    [2^32 - 1] converts to a negative id, the mark of an invalid object. *)
Theorem object_id_width_by_data_model (dm : data_model) :
  (forall id, - 2 ^ 31 <= id < 2 ^ 31 ->
              representable dm id /\ to_object_id dm id = id) /\
  ((forall id, 2 ^ 31 <= id < 2 ^ 63 -> representable dm id) <-> dm = LP64) /\
  (dm <> LP64 ->
   forall id, 2 ^ 31 <= id < 2 ^ 32 ->
              to_object_id dm id = id - 2 ^ 32 /\ to_object_id dm id < 0).
Proof.
  split; [| split].
  - intros id Hid.
    assert (H : representable dm id).
    { apply representable_range. destruct dm; cbn; lia. }
    split; [exact H | apply to_object_id_representable, H].
  - split.
    + intros H. destruct dm; [reflexivity | |];
        specialize (H (2 ^ 31)); apply representable_range in H; cbn in H; lia.
    + intros -> id Hid. apply representable_range. cbn. lia.
  - intros Hdm id Hid.
    assert (Hw : to_object_id dm id = (id + 2 ^ 31) mod 2 ^ 32 - 2 ^ 31).
    { destruct dm; [congruence | reflexivity | reflexivity]. }
    rewrite Hw.
    replace ((id + 2 ^ 31) mod 2 ^ 32) with (id + 2 ^ 31 - 2 ^ 32); [lia |].
    symmetry. rewrite <- (Z.mod_add _ (-1)) by lia. apply Z.mod_small. lia.
Qed.

End ObjectIdWidth.

Section BothAutomatic.

Import create pipeline.

Lemma size_t_of_double_zero d s :
  Prim2SF d = S754_zero s -> size_t_of_double d = Some 0.
Proof.
  intros H. unfold size_t_of_double, Z_of_double_trunc. rewrite H. reflexivity.
Qed.

(** A product with [0.0] is a zero or a NaN, so its conversion to [size_t]
    is 0 when it is defined. *)
Lemma size_t_of_product_with_zero d n :
  size_t_of_double (d * double_of_Z 0)%float = Some n -> n = 0.
Proof.
  assert (H : Prim2SF (d * double_of_Z 0)
              = SFmul prec emax (Prim2SF d) (S754_zero false)).
  { rewrite mul_spec. reflexivity. }
  set (p := (d * double_of_Z 0)%float) in *. intros Hsome.
  destruct (Prim2SF d) as [s | s | | s m e]; cbn in H.
  - rewrite (size_t_of_double_zero p _ H) in Hsome. congruence.
  - rewrite (size_t_of_double_nan p H) in Hsome. discriminate.
  - rewrite (size_t_of_double_nan p H) in Hsome. discriminate.
  - rewrite (size_t_of_double_zero p _ H) in Hsome. congruence.
Qed.

(** X10: when both dimensions are 0 and the validators let that pass, only
    the width is computed, as the aspect ratio of the default-constructed
    rectangle times a height of 0, and the height stays 0.  When that ratio
    is a finite number the product is a zero and the run returns reporting a
    map of 0 by 0, its last stage the interval projection onto [0, 0] in both
    axes.  When it is not, as with the all-zero rectangle, the product is a
    NaN, whose conversion to [size_t] the language leaves undefined: the run
    ends there as [Undefined] and no dimensions are stated for it. *)
Theorem both_dimensions_zero_scale_by_zero_height K o :
  accepted K o ->
  width o = 0 -> height o = 0 ->
  let bounds := default_rectangle K in
  let r := (geometry.width bounds / geometry.height bounds)%float in
  auto_divisor bounds (width o) (height o) = Some (geometry.height bounds) /\
  exec K o = (if ieee.finite r
              then (inr tt, scaled K o 0 0)
              else (inl Undefined, before_scaling K o)) /\
  (ieee.finite r = true ->
   out_width (snd (exec K o)) = 0 /\
   out_height (snd (exec K o)) = 0 /\
   head (stages (snd (exec K o)))
   = Some (ApplyProjection
             (IntervalProjection (0, 1)%float (0, 1)%float
                (0%float, 0%float) (0%float, 0%float)))) /\
  (bounds = geometry.zero ->
   ieee.finite r = false /\
   exec K o = (inl Undefined, before_scaling K o)).
Proof.
  intros Hacc Hw Hh bounds r.
  assert (Hexec : exec K o = (if ieee.finite r
                              then (inr tt, scaled K o 0 0)
                              else (inl Undefined, before_scaling K o))).
  { rewrite (exec_accepted K o Hacc).
    unfold auto_dimensions. rewrite Hw, Hh. cbn [Z.eqb orb].
    fold bounds. fold r.
    assert (H : Prim2SF (r * double_of_Z 0)
                = SFmul prec emax (Prim2SF r) (S754_zero false)).
    { rewrite mul_spec. reflexivity. }
    set (p := (r * double_of_Z 0)%float) in *.
    unfold ieee.finite.
    destruct (Prim2SF r) as [s | s | | s m e]; cbn in H.
    - rewrite (size_t_of_double_zero p _ H). reflexivity.
    - rewrite (size_t_of_double_nan p H). reflexivity.
    - rewrite (size_t_of_double_nan p H). reflexivity.
    - rewrite (size_t_of_double_zero p _ H). reflexivity. }
  split; [| split; [exact Hexec | split]].
  - unfold auto_divisor. rewrite Hw, Hh. reflexivity.
  - intros Hfin. rewrite Hexec, Hfin. repeat split.
  - intros Hz.
    assert (Hfin : ieee.finite r = false).
    { unfold r. rewrite Hz. reflexivity. }
    split; [exact Hfin |]. rewrite Hexec, Hfin. reflexivity.
Qed.

Lemma both_dimensions_zero_scale_by_zero_height_witness :
  accepted scenario.lenient scenario.both_auto /\
  exec scenario.lenient scenario.both_auto
  = (inr tt, scaled scenario.lenient scenario.both_auto 0 0) /\
  out_width (snd (exec scenario.lenient scenario.both_auto)) = 0 /\
  out_height (snd (exec scenario.lenient scenario.both_auto)) = 0 /\
  accepted degenerate.lenient scenario.both_auto /\
  exec degenerate.lenient scenario.both_auto
  = (inl Undefined, before_scaling degenerate.lenient scenario.both_auto).
Proof.
  assert (Hacc : accepted scenario.lenient scenario.both_auto).
  { unfold accepted. vm_compute. repeat split. }
  assert (Hacc' : accepted degenerate.lenient scenario.both_auto).
  { unfold accepted. vm_compute. repeat split. }
  destruct (both_dimensions_zero_scale_by_zero_height
              scenario.lenient scenario.both_auto Hacc eq_refl eq_refl)
    as (_ & Hexec & Hdims & _).
  destruct (Hdims eq_refl) as (Hw & Hh & _).
  destruct (both_dimensions_zero_scale_by_zero_height
              degenerate.lenient scenario.both_auto Hacc' eq_refl eq_refl)
    as (_ & _ & _ & Hzero).
  destruct (Hzero eq_refl) as [_ Hundef].
  split; [exact Hacc |]. split; [exact Hexec |].
  split; [exact Hw |]. split; [exact Hh |].
  split; [exact Hacc' | exact Hundef].
Defined.

End BothAutomatic.
